(** * react-explorer: the favorites panel and the alert queue

    A shallow embedding of [src/components/LeftPanel.tsx] (tree
    synchronizer, selection tracker, navigation router) and of
    [src/components/AppAlert.tsx] (the serialized alert prompt), with the
    properties stated about them.

    Conventions.
    - A JavaScript value that may be [undefined] is an [option].
    - Code that may raise ([x.f] on an undefined [x]) lives in the
      [result] monad below.
    - Objects mutated in place are threaded explicitly; a reference
      returned by [Array.prototype.find] is the position it was found at.
    - Single-threaded event loop: a handler runs to completion; promise
      continuations are kept in explicit reaction and microtask lists. *)

From stdpp Require Import base option strings list.

(** ** JavaScript run-time conventions *)

Module Js.

(** What a [throw] carries: [err.message] and [err.code]. *)
Record Error := mkError { message : string; code : option string }.

(** The error raised by a property access on [undefined]/[null]. *)
Definition TypeError : Error :=
  {| message := "Cannot read property of undefined"; code := None |}.

Inductive result (A : Type) : Type :=
| Ok (a : A)
| Throw (e : Error).
Arguments Ok {A} a.
Arguments Throw {A} e.

#[export] Instance result_ret : MRet result := λ A a, Ok a.
#[export] Instance result_bind : MBind result := λ A B f m,
  match m with
  | Ok a => f a
  | Throw e => Throw e
  end.

(** [x.f] where [x] may be undefined. *)
Definition deref {A} (o : option A) : result A :=
  match o with
  | Some a => Ok a
  | None => Throw TypeError
  end.

(** String conversion inside a template literal. *)
Definition toString (o : option string) : string :=
  match o with
  | Some s => s
  | None => "undefined"
  end.

(** Truthiness of an object reference. *)
Definition truthy {A} (o : option A) : bool :=
  match o with
  | Some _ => true
  | None => false
  end.

End Js.

(** ** LeftPanel.tsx: the tree model *)

Module LeftPanel.
Import Js.

(** [Favorite] of [state/favoritesState]: at run time [label] and
    [icon] may be missing. *)
Record Favorite := mkFavorite {
  fav_label : option string;
  fav_path : string;
  fav_icon : option string
}.

(** The part of [FavoritesState] the panel reads. *)
Record FavoritesState := mkFavorites {
  shortcuts : list Favorite;
  places : list Favorite;
  distributions : option (list Favorite)
}.

(** The JSX label [<span title={...}>{...}</span>] of an entry. *)
Record Span := mkSpan { title : string; content : option string }.

(** An entry node: an [ITreeNode<string>] below a group. *)
Record TreeNode := mkNode {
  nodeId : string;
  nodeKey : string;
  nodeLabel : Span;
  icon : option string;
  nodeData : string;
  isSelected : option bool
}.

(** A root node of the tree: one group with its entries. *)
Record TreeGroup := mkGroup {
  groupId : nat;
  hasCaret : bool;
  isExpanded : bool;
  groupLabel : string;
  childNodes : list TreeNode
}.

(** [this.state.nodes] and the instance field [showDistributions]. *)
Record Panel := mkPanel {
  nodes : list TreeGroup;
  showDistributions : bool
}.

(** [IProps]: [hide] and the translation function [t]. *)
Record Props := mkProps { hide : bool; t : string → string }.

Definition set_childNodes (cs : list TreeNode) (g : TreeGroup) : TreeGroup :=
  {| groupId := groupId g; hasCaret := hasCaret g; isExpanded := isExpanded g;
     groupLabel := groupLabel g; childNodes := cs |}.

Definition set_groupLabel (l : string) (g : TreeGroup) : TreeGroup :=
  {| groupId := groupId g; hasCaret := hasCaret g; isExpanded := isExpanded g;
     groupLabel := l; childNodes := childNodes g |}.

Definition set_isExpanded (b : bool) (g : TreeGroup) : TreeGroup :=
  {| groupId := groupId g; hasCaret := hasCaret g; isExpanded := b;
     groupLabel := groupLabel g; childNodes := childNodes g |}.

Definition set_isSelected (b : bool) (n : TreeNode) : TreeNode :=
  {| nodeId := nodeId n; nodeKey := nodeKey n; nodeLabel := nodeLabel n;
     icon := icon n; nodeData := nodeData n; isSelected := Some b |}.

Definition set_nodes (ns : list TreeGroup) (p : Panel) : Panel :=
  {| nodes := ns; showDistributions := showDistributions p |}.

(** The constructor's [this.state]. *)
Definition initialState (props : Props) : Panel :=
  {| nodes :=
       [ {| groupId := 0; hasCaret := true; isExpanded := true;
            groupLabel := t props "FAVORITES_PANEL.SHORTCUTS"; childNodes := [] |};
         {| groupId := 1; hasCaret := true; isExpanded := true;
            groupLabel := t props "FAVORITES_PANEL.PLACES"; childNodes := [] |} ];
     showDistributions := false |}.

(** The continuation of [checkForWSL] after [await hasWSL()]. *)
Definition checkForWSL (props : Props) (hasWSL : bool) (p : Panel) : Panel :=
  if hasWSL then
    {| nodes := nodes p ++
         [ {| groupId := 2; hasCaret := true; isExpanded := true;
              groupLabel := t props "FAVORITES_PANEL.LINUX"; childNodes := [] |} ];
       showDistributions := true |}
  else
    {| nodes := nodes p; showDistributions := false |}.

Section Platform.
(** [USERNAME] of [utils/platform] and the table [constants/icons]. *)
Variable USERNAME : string.
Variable Icons : string → option string.

Definition shortcutNode (props : Props) (shortcut : Favorite) : TreeNode :=
  {| nodeId := "s_" +:+ fav_path shortcut;
     nodeKey := "s_" +:+ fav_path shortcut;
     nodeLabel :=
       {| title := fav_path shortcut;
          content := Some (if decide (fav_label shortcut = Some "HOME_DIR")
                           then USERNAME
                           else t props ("FAVORITES_PANEL." +:+ toString (fav_label shortcut))) |};
     icon := Icons (toString (fav_label shortcut));
     nodeData := fav_path shortcut;
     isSelected := None |}.

Definition placeNode (place : Favorite) : TreeNode :=
  {| nodeId := "p_" +:+ fav_path place;
     nodeKey := "p_" +:+ fav_path place;
     nodeLabel := {| title := fav_path place; content := fav_label place |};
     icon := fav_icon place;
     nodeData := fav_path place;
     isSelected := None |}.

Definition distribNode (distrib : Favorite) : TreeNode :=
  {| nodeId := "p_" +:+ fav_path distrib;
     nodeKey := "p_" +:+ fav_path distrib;
     nodeLabel := {| title := fav_path distrib; content := fav_label distrib |};
     icon := fav_icon distrib;
     nodeData := fav_path distrib;
     isSelected := None |}.

(** [buildNodes(favorites)]. The three [const] reads of [nodes[i]] do
    not raise; an assignment through an undefined one does. *)
Definition buildNodes (props : Props) (favorites : FavoritesState) (p : Panel)
  : result Panel :=
  let ns := nodes p in
  _ ← deref (ns !! 0);
  let ns := alter (set_childNodes (shortcutNode props <$> shortcuts favorites)) 0 ns in
  _ ← deref (ns !! 1);
  let ns := alter (set_childNodes (placeNode <$> places favorites)) 1 ns in
  ns ← (match showDistributions p, distributions favorites with
        | true, Some ds =>
            _ ← deref (ns !! 2);
            mret (alter (set_childNodes (distribNode <$> ds)) 2 ns)
        | _, _ => mret ns
        end);
  let ns := alter (set_groupLabel (t props "FAVORITES_PANEL.PLACES")) 1 ns in
  let ns := alter (set_groupLabel (t props "FAVORITES_PANEL.SHORTCUTS")) 0 ns in
  (* [if (distributions) distributions.label = ...]: a no-op without a third group *)
  let ns := alter (set_groupLabel (t props "FAVORITES_PANEL.LINUX")) 2 ns in
  mret (set_nodes ns p).

(** [childNodes.find(node => node.nodeData === path)]: the first match
    and its index, the index standing for the object reference. *)
Definition findByPath (path : string) (cs : list TreeNode) : option (nat * TreeNode) :=
  list_find (λ node, nodeData node = path) cs.

(** What [getNodeFromPath] returns: [undefined], or a reference to the
    entry at position [entryIx] of group [groupIx]. *)
Record NodeRef := mkRef { groupIx : nat; entryIx : nat; target : TreeNode }.

Definition inGroup (g : nat) (r : option (nat * TreeNode)) : option NodeRef :=
  match r with
  | Some (i, n) => Some {| groupIx := g; entryIx := i; target := n |}
  | None => None
  end.

(** [a || b] on two lookups. *)
Definition orElse {A} (a b : option A) : option A :=
  match a with
  | Some _ => a
  | None => b
  end.

(** [getNodeFromPath(path)]. *)
Definition getNodeFromPath (path : string) (p : Panel) : result (option NodeRef) :=
  g0 ← deref (nodes p !! 0);
  g1 ← deref (nodes p !! 1);
  let found := orElse (inGroup 0 (findByPath path (childNodes g0)))
                      (inGroup 1 (findByPath path (childNodes g1))) in
  if truthy found || negb (showDistributions p) then mret found
  else
    g2 ← deref (nodes p !! 2);
    mret (inGroup 2 (findByPath path (childNodes g2))).

(** The inner [forEach] of [setActiveNode], over one group's entries. *)
Definition clear (cs : list TreeNode) : list TreeNode := set_isSelected false <$> cs.

(** The two nested [forEach] of [setActiveNode]. *)
Definition clearSelection (ns : list TreeGroup) : list TreeGroup :=
  (λ node, set_childNodes (clear (childNodes node)) node) <$> ns.

(** [selectedNode.isSelected = true] through the reference. *)
Definition markSelected (r : NodeRef) (ns : list TreeGroup) : list TreeGroup :=
  alter (λ g, set_childNodes (alter (set_isSelected true) (entryIx r) (childNodes g)) g)
        (groupIx r) ns.

(** [setActiveNode(path)]. *)
Definition setActiveNode (path : string) (p : Panel) : result Panel :=
  let p := set_nodes (clearSelection (nodes p)) p in
  selectedNode ← getNodeFromPath path p;
  match selectedNode with
  | Some r => mret (set_nodes (markSelected r (nodes p)) p)
  | None => mret p
  end.

(** [onNodeToggle(node)] for the group at position [g]. *)
Definition onNodeToggle (g : nat) (p : Panel) : Panel :=
  set_nodes (alter (λ node, set_isExpanded (negb (isExpanded node)) node) g (nodes p)) p.

(** The entries with [isSelected === true], in one group and over the
    whole tree. *)
Definition selectedIn (cs : list TreeNode) : list TreeNode :=
  filter (λ n, isSelected n = Some true) cs.

Definition selectedNodes (p : Panel) : list TreeNode :=
  g ← nodes p; selectedIn (childNodes g).

(** Selection said over the flat list of entries: every flag cleared,
    then the first entry with the given path marked. *)
Definition selectFirst (dir : string) (cs : list TreeNode) : list TreeNode :=
  match findByPath dir cs with
  | Some (i, _) => alter (set_isSelected true) i (clear cs)
  | None => clear cs
  end.

(** All entries of the tree, group after group. *)
Definition entries (p : Panel) : list TreeNode := g ← nodes p; childNodes g.

(** The first entry with the given path, in the order the tree lists
    its entries. *)
Definition firstMatch (dir : string) (p : Panel) : option TreeNode :=
  snd <$> findByPath dir (entries p).

(** The tree with every selection flag blanked: what is left of a panel
    when [isSelected] is ignored. *)
Definition blank (n : TreeNode) : TreeNode :=
  {| nodeId := nodeId n; nodeKey := nodeKey n; nodeLabel := nodeLabel n;
     icon := icon n; nodeData := nodeData n; isSelected := None |}.

Definition forgetSelection (p : Panel) : Panel :=
  set_nodes ((λ g, set_childNodes (blank <$> childNodes g) g) <$> nodes p) p.

(** The shape every panel has: the two fixed groups, followed by the
    extra group exactly when [showDistributions] is set. *)
Definition wf (p : Panel) : Prop :=
  groupId <$> nodes p = if showDistributions p then [0; 1; 2] else [0; 1].

(** *** The panel in its environment

    The favorites store is shared with the application and replaced from
    outside; the panel hears of it through the two reactions of
    [installReactions] and through [languageChanged]. *)

Record World := mkWorld {
  panel : Panel;
  props : Props;
  favoritesState : FavoritesState;
  (** [hasWSL()] has been called and has not settled yet *)
  probePending : bool
}.

Definition set_panel (p : Panel) (w : World) : World :=
  {| panel := p; props := props w; favoritesState := favoritesState w;
     probePending := probePending w |}.

Definition set_props (pr : Props) (w : World) : World :=
  {| panel := panel w; props := pr; favoritesState := favoritesState w;
     probePending := probePending w |}.

Definition set_favorites (f : FavoritesState) (w : World) : World :=
  {| panel := panel w; props := props w; favoritesState := f;
     probePending := probePending w |}.

Inductive Event :=
| ShortcutsReplaced (l : list Favorite)
| PlacesReplaced (l : list Favorite)
| DistributionsReplaced (o : option (list Favorite))
| LanguageChanged (t' : string → string)
| HideChanged (b : bool)
  (** [hasWSL()] settles: resolved with a boolean, or rejected *)
| ProbeSettled (r : option bool)
  (** a render pass, with the path [getActiveCachePath()] returned *)
| Rendered (activePath : string)
| NodeToggled (g : nat).

(** The constructor; [cy] is [ENV.CY]. *)
Definition construct (cy : bool) (pr : Props) (favorites : FavoritesState) : World :=
  {| panel := initialState pr; props := pr; favoritesState := favorites;
     probePending := negb cy |}.

(** The effect function both reactions of [installReactions] share. *)
Definition reactionEffect (w : World) : result World :=
  if negb (hide (props w)) then
    p ← buildNodes (props w) (favoritesState w) (panel w);
    mret (set_panel p w)
  else mret w.

(** [onLanguageChanged]. *)
Definition onLanguageChanged (w : World) : result World :=
  p ← buildNodes (props w) (favoritesState w) (panel w);
  mret (set_panel p w).

Definition step (ev : Event) (w : World) : result World :=
  match ev with
  | ShortcutsReplaced l =>
      let f := favoritesState w in
      mret (set_favorites {| shortcuts := l; places := places f;
                             distributions := distributions f |} w)
  | PlacesReplaced l =>
      let f := favoritesState w in
      reactionEffect (set_favorites {| shortcuts := shortcuts f; places := l;
                                       distributions := distributions f |} w)
  | DistributionsReplaced o =>
      let f := favoritesState w in
      reactionEffect (set_favorites {| shortcuts := shortcuts f; places := places f;
                                       distributions := o |} w)
  | LanguageChanged t' =>
      onLanguageChanged (set_props {| hide := hide (props w); t := t' |} w)
  | HideChanged b =>
      mret (set_props {| hide := b; t := t (props w) |} w)
  | ProbeSettled r =>
      if probePending w then
        let w := {| panel := panel w; props := props w;
                    favoritesState := favoritesState w; probePending := false |} in
        match r with
        | Some b => mret (set_panel (checkForWSL (props w) b (panel w)) w)
        | None => mret w
        end
      else mret w
  | Rendered activePath =>
      p ← setActiveNode activePath (panel w);
      mret (set_panel p w)
  | NodeToggled g =>
      mret (set_panel (onNodeToggle g (panel w)) w)
  end.

Fixpoint run (evs : list Event) (w : World) : result World :=
  match evs with
  | [] => mret w
  | ev :: evs => w' ← step ev w; run evs w'
  end.

Definition isSettlement (ev : Event) : bool :=
  match ev with
  | ProbeSettled _ => true
  | _ => false
  end.

Definition settlesTruthy (ev : Event) : bool :=
  match ev with
  | ProbeSettled (Some true) => true
  | _ => false
  end.

(** The probe resolved truthy somewhere in [evs]: the first settlement
    in [evs] finds the probe pending and carries [true]. *)
Fixpoint probeTruthy (pending : bool) (evs : list Event) : bool :=
  match evs with
  | [] => false
  | ev :: evs =>
      if isSettlement ev then pending && settlesTruthy ev
      else probeTruthy pending evs
  end.

(** What a full rebuild leaves in each group, said group by group: the
    mapped image of the matching collection and the localized header.
    The extra group keeps its entries while its collection is missing. *)
Definition rebuiltGroup (pr : Props) (favorites : FavoritesState) (g : TreeGroup)
  : TreeGroup :=
  match groupId g with
  | 0 => {| groupId := groupId g; hasCaret := hasCaret g; isExpanded := isExpanded g;
            groupLabel := t pr "FAVORITES_PANEL.SHORTCUTS";
            childNodes := shortcutNode pr <$> shortcuts favorites |}
  | 1 => {| groupId := groupId g; hasCaret := hasCaret g; isExpanded := isExpanded g;
            groupLabel := t pr "FAVORITES_PANEL.PLACES";
            childNodes := placeNode <$> places favorites |}
  | _ => {| groupId := groupId g; hasCaret := hasCaret g; isExpanded := isExpanded g;
            groupLabel := t pr "FAVORITES_PANEL.LINUX";
            childNodes := match distributions favorites with
                          | Some ds => distribNode <$> ds
                          | None => childNodes g
                          end |}
  end.

Definition rebuiltTree (pr : Props) (favorites : FavoritesState) (p : Panel) : Panel :=
  set_nodes (rebuiltGroup pr favorites <$> nodes p) p.

(** The world an event leaves before any handler has run: the store or
    the props with the new value in place. *)
Definition deliver (ev : Event) (w : World) : World :=
  let f := favoritesState w in
  match ev with
  | ShortcutsReplaced l =>
      set_favorites {| shortcuts := l; places := places f;
                       distributions := distributions f |} w
  | PlacesReplaced l =>
      set_favorites {| shortcuts := shortcuts f; places := l;
                       distributions := distributions f |} w
  | DistributionsReplaced o =>
      set_favorites {| shortcuts := shortcuts f; places := places f;
                       distributions := o |} w
  | LanguageChanged t' => set_props {| hide := hide (props w); t := t' |} w
  | HideChanged b => set_props {| hide := b; t := t (props w) |} w
  | _ => w
  end.

(** The shape of a world: a well-shaped panel whose extra group is still
    absent while the probe is pending. *)
Definition wfWorld (w : World) : Prop :=
  wf (panel w) ∧ (probePending w = true → showDistributions (panel w) = false).

(** The extra-category group is in the model. *)
Definition hasExtraGroup (p : Panel) : bool :=
  match nodes p !! 2 with
  | Some g => bool_decide (groupId g = 2)
  | None => false
  end.

End Platform.

End LeftPanel.

(** ** LeftPanel.tsx: the navigation router *)

Module Router.
Import Js.

(** The two panes of the window, [viewId] 0 and 1. *)
Inductive ViewId := View0 | View1.

#[export] Instance ViewId_eq_dec : EqDecision ViewId.
Proof. solve_decision. Defined.

Definition other (v : ViewId) : ViewId :=
  match v with
  | View0 => View1
  | View1 => View0
  end.

(** The cache a pane shows: its directory and its readiness status. *)
Record FileState := mkCache { path : string; status : string }.

(** Modelled from the spec: the View Host ([appState], [winStates[0]] and
    its two views), whose code is not part of the sources at hand. It
    owns the split flag, the active pane and the cache each pane shows;
    [explorer] is false when no pane is on display, in which case
    [getActiveCache()] has nothing to return. *)
Record AppState := mkApp {
  splitView : bool;
  activeView : ViewId;
  cache0 : FileState;
  cache1 : FileState;
  explorer : bool
}.

(** Modelled from the spec: [PaneHandle.getVisiblePath()], here
    [viewState.getVisibleCache()]. *)
Definition getVisibleCache (v : ViewId) (a : AppState) : FileState :=
  match v with
  | View0 => cache0 a
  | View1 => cache1 a
  end.

(** Modelled from the spec: [getActiveCache()], the active pane's cache
    or nothing. *)
Definition getActiveCache (a : AppState) : option FileState :=
  if explorer a then Some (getVisibleCache (activeView a) a) else None.

(** The active pane is there and its status is ['ok'], the test of
    [openFavorite]. *)
Definition activeReady (a : AppState) : bool :=
  match getActiveCache a with
  | Some activeCache => bool_decide (status activeCache = "ok")
  | None => false
  end.

(** Modelled from the spec: [getInactivePane()], the pane that is not
    the active one. *)
Definition getInactiveView (a : AppState) : ViewId := other (activeView a).

(** Modelled from the spec: [activatePane(id)]. *)
Definition setActiveView (v : ViewId) (a : AppState) : AppState :=
  {| splitView := splitView a; activeView := v; cache0 := cache0 a;
     cache1 := cache1 a; explorer := explorer a |}.

(** Modelled from the spec: [toggleSplit()]. Enabling split mode reveals
    the second pane and makes it the active one; leaving split mode
    returns to the first pane. *)
Definition toggleSplitViewMode (a : AppState) : AppState :=
  {| splitView := negb (splitView a);
     activeView := if splitView a then View0 else View1;
     cache0 := cache0 a; cache1 := cache1 a; explorer := explorer a |}.

(** Modelled from the spec: a pane that navigated shows the new path. *)
Definition showPath (v : ViewId) (dir : string) (a : AppState) : AppState :=
  match v with
  | View0 => {| splitView := splitView a; activeView := activeView a;
                cache0 := {| path := dir; status := status (cache0 a) |};
                cache1 := cache1 a; explorer := explorer a |}
  | View1 => {| splitView := splitView a; activeView := activeView a;
                cache0 := cache0 a;
                cache1 := {| path := dir; status := status (cache1 a) |};
                explorer := explorer a |}
  end.

(** How the promise of a navigation call settles. *)
Inductive Settlement :=
| Resolves
| Rejects (e : Error).

(** What a navigation call does: hand back a promise, or raise before
    it returns. *)
Inductive NavOutcome :=
| Returns (s : Settlement)
| Raises (e : Error).

(** The file system as the router meets it: the fate of a navigation of
    pane [v] to [dir]. *)
Definition Navigator := ViewId → string → NavOutcome.

(** Calls the router makes on its collaborators, in order. *)
Inductive Call :=
| CallToggleSplitViewMode
| CallSetActiveView (v : ViewId)
  (** [activeCache.cd(path)] *)
| CallCd (v : ViewId) (dir : string)
  (** [viewState.addCache(path, -1, true)] *)
| CallAddCache (v : ViewId) (dir : string)
  (** [AppAlert.show(message, { intent })] *)
| CallAlertShow (message : string) (intent : string).

(** A synchronous run of [openFavorite]: the host afterwards, the calls
    made, the promises it received and let go of, and the exception it
    ended with, if any. *)
Record Run := mkRun {
  app : AppState;
  calls : list Call;
  dropped : list Settlement;
  thrown : option Error
}.

(** One navigation call on pane [v], made as an expression statement. *)
Definition navigate (nav : Navigator) (c : Call) (v : ViewId) (dir : string)
    (a : AppState) (before : list Call) : Run :=
  match nav v dir with
  | Returns Resolves =>
      {| app := showPath v dir a; calls := before ++ [c];
         dropped := [Resolves]; thrown := None |}
  | Returns (Rejects e) =>
      {| app := a; calls := before ++ [c]; dropped := [Rejects e]; thrown := None |}
  | Raises e =>
      {| app := a; calls := before ++ [c]; dropped := []; thrown := Some e |}
  end.

(** [openFavorite(path, sameView)]. *)
Definition openFavorite (nav : Navigator) (dir : string) (sameView : bool)
    (a : AppState) : Run :=
  if sameView then
    match getActiveCache a with
    | Some activeCache =>
        if decide (status activeCache = "ok")
        then navigate nav (CallCd (activeView a) dir) (activeView a) dir a []
        else {| app := a; calls := []; dropped := []; thrown := None |}
    | None => {| app := a; calls := []; dropped := []; thrown := None |}
    end
  else
    let viewState := getInactiveView a in
    let '(a', cs) :=
      if negb (splitView a)
      then (toggleSplitViewMode a, [CallToggleSplitViewMode])
      else (setActiveView viewState a, [CallSetActiveView viewState]) in
    if decide (path (getVisibleCache viewState a') ≠ dir)
    then navigate nav (CallAddCache viewState dir) viewState dir a' cs
    else {| app := a'; calls := cs; dropped := []; thrown := None |}.

(** The part of [React.MouseEvent] the click handler reads. *)
Record MouseEvent := mkMouse { altKey : bool; ctrlKey : bool }.

(** What one activation leaves behind. *)
Record Activation := mkActivation {
  host : AppState;
  trace : list Call;
  (** rejected promises nobody was listening to *)
  unhandled : list Error
}.

Definition rejections (ps : list Settlement) : list Error :=
  omap (λ s, match s with Rejects e => Some e | Resolves => None end) ps.

(** The template literal of the [catch] clause. *)
Definition formatError (err : Error) : string :=
  message err +:+ " (" +:+ toString (code err) +:+ ")".

(** [onNodeClick(node, _, e)]: [await] sees the [undefined] that
    [openFavorite] returns, so only an exception raised during the call
    reaches [catch]. [nodeData] is the clicked node's path. *)
Definition onNodeClick (isMac : bool) (nav : Navigator) (nodeData : string)
    (e : MouseEvent) (a : AppState) : Activation :=
  let r := openFavorite nav nodeData (negb (if isMac then altKey e else ctrlKey e)) a in
  match thrown r with
  | None =>
      {| host := app r; trace := calls r; unhandled := rejections (dropped r) |}
  | Some err =>
      {| host := app r;
         trace := calls r ++ [CallAlertShow (formatError err) "danger"];
         unhandled := rejections (dropped r) |}
  end.

Definition isNavigation (c : Call) : bool :=
  match c with
  | CallCd _ _ | CallAddCache _ _ => true
  | _ => false
  end.

Definition isAlert (c : Call) : bool :=
  match c with
  | CallAlertShow _ _ => true
  | _ => false
  end.

End Router.

(** ** AppAlert.tsx: one prompt at a time *)

Module AppAlert.
Import Js.

(** One key of [options: Partial<IAlertProps>]: left out of the object,
    or given, be it with the value [undefined]. *)
Inductive Key (A : Type) :=
| Omitted
| Given (value : option A).

Arguments Omitted {A}.
Arguments Given {A} value.

(** The arguments of one [show(message, options)] call. *)
Record Request := mkRequest { message : string; intent : Key string }.

(** [IAlerterState], as far as [show] and [onClose] write it. *)
Record AlerterState := mkState {
  stMessage : string;
  stIntent : option string;
  isOpen : bool
}.

(** What the user can observe, in order. A [Deferred] is named by the
    number it was created under. *)
Inductive Observation :=
| PromptOpened (d : nat) (req : Request)
| PromptResolved (d : nat) (res : bool).

(** The [Alerter] instance together with the promise machinery around
    it: [reactions] holds, in registration order, the [show] calls
    suspended at [await this.defer.promise], each with the deferred it
    waits for and the arguments it will re-issue. *)
Record Alerter := mkAlerter {
  defer : option nat;
  state : AlerterState;
  created : nat;
  reactions : list (nat * Request);
  log : list Observation
}.

(** [Alerter.create()]. *)
Definition create : Alerter :=
  {| defer := None;
     state := {| stMessage := ""; stIntent := None; isOpen := false |};
     created := 0; reactions := []; log := [] |}.

(** [...options] merged by [setState]: the spread copies every key the
    object has, an [undefined] one too, and [setState] overwrites the
    state with it; only a key that is left out keeps the value the state
    had. *)
Definition mergeIntent (new : Key string) (old : option string) : option string :=
  match new with
  | Given value => value
  | Omitted => old
  end.

(** [show(message, options)], up to its first suspension. *)
Definition show (req : Request) (a : Alerter) : Alerter :=
  match defer a with
  | None =>
      {| defer := Some (created a);
         state := {| stMessage := message req;
                     stIntent := mergeIntent (intent req) (stIntent (state a));
                     isOpen := true |};
         created := S (created a);
         reactions := reactions a;
         log := log a ++ [PromptOpened (created a) req] |}
  | Some d =>
      {| defer := defer a; state := state a; created := created a;
         reactions := reactions a ++ [(d, req)]; log := log a |}
  end.

(** [onClose(res)]: the state it leaves and the continuations that
    [defer.resolve(res)] queues as microtasks, in registration order. *)
Definition onClose (res : bool) (a : Alerter) : result (Alerter * list Request) :=
  let st := {| stMessage := stMessage (state a); stIntent := stIntent (state a);
               isOpen := false |} in
  d ← deref (defer a);
  mret ({| defer := None; state := st; created := created a;
           reactions := filter (λ w, w.1 ≠ d) (reactions a);
           log := log a ++ [PromptResolved d res] |},
        (filter (λ w, w.1 = d) (reactions a)).*2).

(** The microtask checkpoint: every queued continuation runs
    [return this.show(message, options)]. *)
Definition runMicrotasks (jobs : list Request) (a : Alerter) : Alerter :=
  foldl (λ a req, show req a) a jobs.

(** What happens to the alerter in one turn of the event loop, taken as
    a whole: a call, or an answer together with the microtasks that
    follow it, nothing else running in between. [AlertLoop] below takes
    the turn apart. *)
Inductive Input :=
| Present (req : Request)
| Dismiss (res : bool).

Definition turn (i : Input) (a : Alerter) : result Alerter :=
  match i with
  | Present req => mret (show req a)
  | Dismiss res => '(a', jobs) ← onClose res a; mret (runMicrotasks jobs a')
  end.

Fixpoint turns (ins : list Input) (a : Alerter) : result Alerter :=
  match ins with
  | [] => mret a
  | i :: ins => a' ← turn i a; turns ins a'
  end.

(** The prompts that are open once the observations [l] have been made,
    given those open before. *)
Definition observe (open : list nat) (o : Observation) : list nat :=
  match o with
  | PromptOpened d _ => open ++ [d]
  | PromptResolved d _ => filter (λ d', d' ≠ d) open
  end.

Definition openPrompts (l : list Observation) : list nat := foldl observe [] l.

(** The observations of serving [served] one after the other, the
    deferreds numbered from [d]. *)
Fixpoint servedLog (d : nat) (served : list (Request * bool)) : list Observation :=
  match served with
  | [] => []
  | (req, res) :: served =>
      PromptOpened d req :: PromptResolved d res :: servedLog (S d) served
  end.

(** The queue as the spec words it, to compare the alerter with: the
    requests answered so far with their answers, the one prompt that is
    open, and the requests waiting behind it in submission order. *)
Record Queue := mkQueue {
  served : list (Request * bool);
  current : option Request;
  pending : list Request
}.

Definition idle : Queue := {| served := []; current := None; pending := [] |}.

(** One at a time, first come first served; a dismissal needs an open
    prompt. *)
Definition queueTurn (i : Input) (q : Queue) : option Queue :=
  match i, current q with
  | Present req, None =>
      Some {| served := served q; current := Some req; pending := pending q |}
  | Present req, Some _ =>
      Some {| served := served q; current := current q; pending := pending q ++ [req] |}
  | Dismiss res, Some c =>
      Some {| served := served q ++ [(c, res)]; current := head (pending q);
              pending := tail (pending q) |}
  | Dismiss res, None => None
  end.

Fixpoint queueTurns (ins : list Input) (q : Queue) : option Queue :=
  match ins with
  | [] => Some q
  | i :: ins => q' ← queueTurn i q; queueTurns ins q'
  end.

(** What the user observes of such a queue. *)
Definition queueLog (q : Queue) : list Observation :=
  servedLog 0 (served q) ++
  match current q with
  | Some c => [PromptOpened (length (served q)) c]
  | None => []
  end.

(** Every request of the queue, oldest first. *)
Definition queued (q : Queue) : list Request :=
  (served q).*1 ++ option_list (current q) ++ pending q.

(** The requests and the answers among the inputs, in order. *)
Definition requests (ins : list Input) : list Request :=
  omap (λ i, match i with Present req => Some req | Dismiss _ => None end) ins.

Definition answers (ins : list Input) : list bool :=
  omap (λ i, match i with Dismiss res => Some res | Present _ => None end) ins.

(** The alerter shows what the queue says. *)
Definition shows (a : Alerter) (q : Queue) : Prop :=
  log a = queueLog q ∧
  defer a = (λ _, length (served q)) <$> current q ∧
  created a = length (served q) + length (option_list (current q)) ∧
  reactions a = (λ req, (length (served q), req)) <$> pending q ∧
  isOpen (state a) = bool_decide (is_Some (current q)) ∧
  (current q = None → pending q = []).

End AppAlert.

(** ** AppAlert.tsx at the grain of the microtask queue

    [show] is an async function: each invocation returns a promise of
    its own, a [return] of another promise makes that promise follow the
    other one through a job of its own, and the rest of a call suspended
    at [await] runs as a microtask once the awaited promise is fulfilled.
    Here every such job is a step, and calls and answers may fall between
    any two of them. *)

Module AlertLoop.
Import Js.

(** Modelled from the spec: [Deferred] (utils/deferred, which is not
    among the sources), a pending result that completes when its
    [resolve] is called. [DeferredPromise d] is the promise of the
    deferred numbered [d], [ShowPromise o] the promise that the
    invocation of [show] numbered [o] returns. *)
Inductive PromiseId :=
| DeferredPromise (d : nat)
| ShowPromise (o : nat).

#[global] Instance PromiseId_eq_dec : EqDecision PromiseId.
Proof. solve_decision. Defined.

(** What a pending promise holds until it is fulfilled. *)
Inductive Reaction :=
  (** the rest of the invocation [o], suspended at
      [await this.defer.promise]: [return this.show(message, options)] *)
| Resume (req : AppAlert.Request) (o : nat)
  (** the promise of invocation [o] was resolved with this promise *)
| Follow (o : nat).

(** The microtasks. *)
Inductive Job :=
| RunResume (req : AppAlert.Request) (o : nat)
  (** an invocation returned the promise [p]: [p.then] is called for
      the invocation's own promise *)
| RunAdopt (o : nat) (p : PromiseId)
| RunFollow (o : nat) (v : bool).

(** What can be observed, in order. *)
Inductive Event :=
  (** a caller was handed the promise [ShowPromise o] for [req] *)
| Called (o : nat) (req : AppAlert.Request)
| Opened (d : nat) (req : AppAlert.Request)
| Fulfilled (p : PromiseId) (v : bool).

Record Loop := mkLoop {
  defer : option nat;
  state : AppAlert.AlerterState;
  fresh : nat;
  fulfilled : list (PromiseId * bool);
  reactions : list (PromiseId * Reaction);
  microtasks : list Job;
  log : list Event
}.

Definition create : Loop :=
  {| defer := None;
     state := {| AppAlert.stMessage := ""; AppAlert.stIntent := None;
                 AppAlert.isOpen := false |};
     fresh := 0; fulfilled := []; reactions := []; microtasks := []; log := [] |}.

Definition enqueue (j : Job) (s : Loop) : Loop :=
  {| defer := defer s; state := state s; fresh := fresh s; fulfilled := fulfilled s;
     reactions := reactions s; microtasks := microtasks s ++ [j]; log := log s |}.

Definition register (p : PromiseId) (r : Reaction) (s : Loop) : Loop :=
  {| defer := defer s; state := state s; fresh := fresh s; fulfilled := fulfilled s;
     reactions := reactions s ++ [(p, r)]; microtasks := microtasks s; log := log s |}.

Definition record (e : Event) (s : Loop) : Loop :=
  {| defer := defer s; state := state s; fresh := fresh s; fulfilled := fulfilled s;
     reactions := reactions s; microtasks := microtasks s; log := log s ++ [e] |}.

(** One invocation of [show(message, options)] up to its first
    suspension or its [return], with the number of the promise it hands
    back. *)
Definition show (req : AppAlert.Request) (s : Loop) : Loop * nat :=
  let o := fresh s in
  match defer s with
  | None =>
      let d := S o in
      (enqueue (RunAdopt o (DeferredPromise d))
         (record (Opened d req)
            {| defer := Some d;
               state := {| AppAlert.stMessage := AppAlert.message req;
                           AppAlert.stIntent :=
                             AppAlert.mergeIntent (AppAlert.intent req)
                               (AppAlert.stIntent (state s));
                           AppAlert.isOpen := true |};
               fresh := S d; fulfilled := fulfilled s; reactions := reactions s;
               microtasks := microtasks s; log := log s |}), o)
  | Some d =>
      (register (DeferredPromise d) (Resume req o)
         {| defer := defer s; state := state s; fresh := S o;
            fulfilled := fulfilled s; reactions := reactions s;
            microtasks := microtasks s; log := log s |}, o)
  end.

(** A call from outside: [AppAlert.show(message, props)]. *)
Definition call (req : AppAlert.Request) (s : Loop) : Loop :=
  (show req (record (Called (fresh s) req) s)).1.

(** The job a reaction becomes when its promise is fulfilled with [v]. *)
Definition jobOf (v : bool) (r : Reaction) : Job :=
  match r with
  | Resume req o => RunResume req o
  | Follow o => RunFollow o v
  end.

(** The promise [p] is fulfilled with [v]: its reactions are queued as
    microtasks in the order they were registered in. *)
Definition fulfil (p : PromiseId) (v : bool) (s : Loop) : Loop :=
  {| defer := defer s; state := state s; fresh := fresh s;
     fulfilled := fulfilled s ++ [(p, v)];
     reactions := filter (λ x, x.1 ≠ p) (reactions s);
     microtasks := microtasks s ++ (jobOf v <$> (filter (λ x, x.1 = p) (reactions s)).*2);
     log := log s ++ [Fulfilled p v] |}.

(** [onClose(res)]. *)
Definition onClose (res : bool) (s : Loop) : result Loop :=
  let st := {| AppAlert.stMessage := AppAlert.stMessage (state s);
               AppAlert.stIntent := AppAlert.stIntent (state s);
               AppAlert.isOpen := false |} in
  d ← deref (defer s);
  mret (fulfil (DeferredPromise d) res
          {| defer := None; state := st; fresh := fresh s; fulfilled := fulfilled s;
             reactions := reactions s; microtasks := microtasks s; log := log s |}).

(** The value a promise was fulfilled with, if it was. *)
Definition valueOf (p : PromiseId) (s : Loop) : option bool :=
  (λ x, x.2.2) <$> list_find (λ x, x.1 = p) (fulfilled s).

Definition runJob (j : Job) (s : Loop) : Loop :=
  match j with
  | RunResume req o =>
      let '(s', o') := show req s in
      enqueue (RunAdopt o (ShowPromise o')) s'
  | RunAdopt o p =>
      match valueOf p s with
      | Some v => enqueue (RunFollow o v) s
      | None => register p (Follow o) s
      end
  | RunFollow o v => fulfil (ShowPromise o) v s
  end.

(** The oldest microtask runs. *)
Definition tick (s : Loop) : Loop :=
  match microtasks s with
  | [] => s
  | j :: jobs =>
      runJob j {| defer := defer s; state := state s; fresh := fresh s;
                  fulfilled := fulfilled s; reactions := reactions s;
                  microtasks := jobs; log := log s |}
  end.

Inductive Step :=
| Call (req : AppAlert.Request)
| Close (res : bool)
| Tick.

Definition step (st : Step) (s : Loop) : result Loop :=
  match st with
  | Call req => mret (call req s)
  | Close res => onClose res s
  | Tick => mret (tick s)
  end.

Fixpoint run (steps : list Step) (s : Loop) : result Loop :=
  match steps with
  | [] => mret s
  | st :: steps => s' ← step st s; run steps s'
  end.

(** The requests of the calls made, of the prompts opened, of the calls
    suspended at [await] and of those about to be re-issued, each in
    order. *)
Definition requestOfReaction (x : PromiseId * Reaction) : option AppAlert.Request :=
  match x.2 with
  | Resume req _ => Some req
  | Follow _ => None
  end.

Definition requestOfJob (j : Job) : option AppAlert.Request :=
  match j with
  | RunResume req _ => Some req
  | _ => None
  end.

Definition called (l : list Event) : list AppAlert.Request :=
  omap (λ e, match e with Called _ req => Some req | _ => None end) l.

Definition opened (l : list Event) : list AppAlert.Request :=
  omap (λ e, match e with Opened _ req => Some req | _ => None end) l.

Definition suspended (s : Loop) : list AppAlert.Request :=
  omap requestOfReaction (reactions s).

Definition resuming (s : Loop) : list AppAlert.Request :=
  omap requestOfJob (microtasks s).

Definition waiting (s : Loop) : list AppAlert.Request := suspended s ++ resuming s.

(** The prompts that are open once the events [l] have happened: a
    prompt is closed when its deferred is resolved. *)
Definition observe (open : list nat) (e : Event) : list nat :=
  match e with
  | Opened d _ => open ++ [d]
  | Fulfilled (DeferredPromise d) _ => filter (λ d', d' ≠ d) open
  | _ => open
  end.

Definition openPrompts (l : list Event) : list nat := foldl observe [] l.

(** What [setState] has left on display after these prompts. *)
Definition displayedIntent (reqs : list AppAlert.Request) : option string :=
  foldl (λ acc req, AppAlert.mergeIntent (AppAlert.intent req) acc) None reqs.

Definition displayedMessage (reqs : list AppAlert.Request) : string :=
  from_option AppAlert.message "" (last reqs).

(** No call and no answer arrives while a call that has waited is about
    to be re-issued. *)
Definition undisturbed (st : Step) (s : Loop) : bool :=
  match st, resuming s with
  | Tick, _ => true
  | _, [] => true
  | _, _ :: _ => false
  end.

Fixpoint quiet (steps : list Step) (s : Loop) : bool :=
  match steps with
  | [] => true
  | st :: steps =>
      undisturbed st s &&
      match step st s with
      | Ok s' => quiet steps s'
      | Throw _ => true
      end
  end.

(** Every call suspended at [await] waits for the deferred of the
    prompt that is open. *)
Definition tidy (s : Loop) : Prop :=
  ∀ p req o, (p, Resume req o) ∈ reactions s →
    ∃ d, defer s = Some d ∧ p = DeferredPromise d.

(** No instant of the log has two prompts open. *)
Definition oneAtATime (l : list Event) : Prop :=
  ∀ k, length (openPrompts (take k l)) ≤ 1.

(** What holds of the alerter between any two steps. *)
Definition sound (s : Loop) : Prop :=
  openPrompts (log s) = option_list (defer s) ∧
  oneAtATime (log s) ∧
  tidy s ∧
  AppAlert.isOpen (state s) = bool_decide (is_Some (defer s)) ∧
  AppAlert.stMessage (state s) = displayedMessage (opened (log s)) ∧
  AppAlert.stIntent (state s) = displayedIntent (opened (log s)).

(** The place of the first event of [l] that satisfies [f]. *)
Definition position (f : Event → bool) (l : list Event) : option nat :=
  fst <$> list_find (λ e, f e = true) l.

Definition opens (req : AppAlert.Request) (e : Event) : bool :=
  match e with
  | Opened _ req' => String.eqb (AppAlert.message req) (AppAlert.message req')
  | _ => false
  end.

Definition settles (o : nat) (e : Event) : bool :=
  match e with
  | Fulfilled (ShowPromise o') _ => Nat.eqb o o'
  | _ => false
  end.

End AlertLoop.

Module AlertSamples.
Import AppAlert.

Definition A : Request := {| message := "first"; intent := Given (Some "danger") |}.
Definition B : Request := {| message := "second"; intent := Omitted |}.
Definition C : Request := {| message := "third"; intent := Given (Some "warning") |}.
Definition D : Request := {| message := "fourth"; intent := Given None |}.

(** Three calls in one turn of the event loop, then the user answers
    each prompt as it comes up. *)
Definition threeAtOnce : list Input :=
  [Present A; Present B; Present C; Dismiss true; Dismiss false; Dismiss true].

(** The same three calls in one turn, step by step: the microtasks run
    dry before the user answers the first prompt and again after it. *)
Definition threeInOneTurn : list AlertLoop.Step :=
  [AlertLoop.Call A; AlertLoop.Call B; AlertLoop.Call C; AlertLoop.Tick;
   AlertLoop.Close true;
   AlertLoop.Tick; AlertLoop.Tick; AlertLoop.Tick; AlertLoop.Tick; AlertLoop.Tick;
   AlertLoop.Tick; AlertLoop.Tick; AlertLoop.Tick; AlertLoop.Tick; AlertLoop.Tick].

(** Two calls, then the code that closes the first prompt goes on to
    present a third request before the microtasks run. *)
Definition lateCall : list AlertLoop.Step :=
  [AlertLoop.Call A; AlertLoop.Tick; AlertLoop.Call B;
   AlertLoop.Close true; AlertLoop.Call C;
   AlertLoop.Tick; AlertLoop.Tick; AlertLoop.Tick; AlertLoop.Tick].

(** Four prompts one after the other, each answered before the next
    call. *)
Definition fourInTurn : list AlertLoop.Step :=
  [AlertLoop.Call A; AlertLoop.Tick; AlertLoop.Close true; AlertLoop.Tick;
   AlertLoop.Call B; AlertLoop.Tick; AlertLoop.Close true; AlertLoop.Tick;
   AlertLoop.Call D; AlertLoop.Tick; AlertLoop.Close false; AlertLoop.Tick;
   AlertLoop.Call B].

(** The alerter after each of these schedules. *)
Definition afterThree : AlertLoop.Loop :=
  Eval vm_compute in
  match AlertLoop.run threeInOneTurn AlertLoop.create with
  | Js.Ok s => s
  | Js.Throw _ => AlertLoop.create
  end.

Definition afterLate : AlertLoop.Loop :=
  Eval vm_compute in
  match AlertLoop.run lateCall AlertLoop.create with
  | Js.Ok s => s
  | Js.Throw _ => AlertLoop.create
  end.

Definition afterFour : AlertLoop.Loop :=
  Eval vm_compute in
  match AlertLoop.run fourInTurn AlertLoop.create with
  | Js.Ok s => s
  | Js.Throw _ => AlertLoop.create
  end.

End AlertSamples.

(** ** Sample data *)

Module Samples.
Import LeftPanel.

Definition username : string := "leo".

Definition icons (label : string) : option string :=
  if decide (label = "HOME_DIR") then Some "home" else None.

(** A translation that hands the key back. *)
Definition keys (key : string) : string := key.

Definition visible : Props := {| hide := false; t := keys |}.
Definition hidden : Props := {| hide := true; t := keys |}.

Definition home : Favorite :=
  {| fav_label := Some "HOME_DIR"; fav_path := "/home/u"; fav_icon := None |}.
Definition data : Favorite :=
  {| fav_label := Some "Data"; fav_path := "/data"; fav_icon := Some "database" |}.
Definition ubuntu : Favorite :=
  {| fav_label := Some "Ubuntu"; fav_path := "/mnt/wsl/ubuntu"; fav_icon := Some "console" |}.
(** An entry whose label and icon are missing. *)
Definition bare : Favorite :=
  {| fav_label := None; fav_path := "/data"; fav_icon := None |}.

Definition favorites : FavoritesState :=
  {| shortcuts := [home]; places := [data]; distributions := Some [ubuntu] |}.

(** The panel as constructed, with automated-test mode off. *)
Definition fresh : World := construct false visible favorites.

(** The same panel, hidden. *)
Definition concealed : World := construct false hidden favorites.

(** A panel after a truthy probe and a rebuild: three groups, one entry
    each. *)
Definition tree : Panel :=
  rebuiltTree username icons visible favorites
    (checkForWSL visible true (initialState visible)).

(** A store in which a saved place and a detected distribution point at
    the same directory. *)
Definition overlapping : FavoritesState :=
  {| shortcuts := [home]; places := [data];
     distributions := Some [ {| fav_label := Some "Data (WSL)"; fav_path := "/data";
                                fav_icon := Some "console" |} ] |}.

(** A store with a place that has neither label nor icon. *)
Definition gappy : FavoritesState :=
  {| shortcuts := []; places := [bare]; distributions := None |}.

End Samples.

Module RouterSamples.
Import Js Router.

(** A navigation failure with its human text and machine code. *)
Definition denied : Error :=
  {| message := "permission denied"; code := Some "EACCES" |}.

(** A file system that rejects every navigation. *)
Definition refusing : Navigator := λ _ _, Returns (Rejects denied).

(** A file system that accepts every navigation. *)
Definition willing : Navigator := λ _ _, Returns Resolves.

Definition plainClick : MouseEvent := {| altKey := false; ctrlKey := false |}.
Definition ctrlClick : MouseEvent := {| altKey := false; ctrlKey := true |}.

(** One pane on display, ready, at the home directory; the second pane
    behind it shows the same directory. *)
Definition single : AppState :=
  {| splitView := false; activeView := View0;
     cache0 := {| path := "/home/u"; status := "ok" |};
     cache1 := {| path := "/home/u"; status := "ok" |};
     explorer := true |}.

(** The same host while its pane is still loading. *)
Definition loading : AppState :=
  {| splitView := false; activeView := View0;
     cache0 := {| path := "/home/u"; status := "busy" |};
     cache1 := {| path := "/home/u"; status := "ok" |};
     explorer := true |}.

End RouterSamples.

(** ** LeftPanel.tsx: render pass and life cycle *)

Module Lifetime.
Import Js LeftPanel.

(** [getActiveCachePath()], given what [appState.getActiveCache()]
    returned. *)
Definition getActiveCachePath (activeCache : option Router.FileState) : string :=
  match activeCache with
  | Some c => Router.path c
  | None => ""
  end.

(** What [render()] hands to the [Tree] component. *)
Record TreeProps := mkTree {
  contents : list TreeGroup;
  hidden : bool
}.

(** [render()]: the selection is recomputed on [this.state.nodes], which
    is then passed on as it is. *)
Definition render (pr : Props) (activeCache : option Router.FileState) (p : Panel)
  : result (Panel * TreeProps) :=
  p' ← setActiveNode (getActiveCachePath activeCache) p;
  mret (p', {| contents := nodes p'; hidden := hide pr |}).

(** The subscriptions the constructor takes out: the two reactions of
    [installReactions] and the [languageChanged] listener. *)
Inductive Handler := PlacesReaction | DistributionsReaction | LanguageListener.

#[export] Instance Handler_eq_dec : EqDecision Handler.
Proof. solve_decision. Defined.

(** A panel instance with its [disposers] array, and the handlers that
    the reaction and event registries still hold for it. *)
Record Mounted := mkMounted {
  world : World;
  disposers : list Handler;
  registered : list Handler
}.

(** Calling the disposer of a reaction takes it off the registry. *)
Definition dispose (h : Handler) (hs : list Handler) : list Handler :=
  filter (λ h', h' ≠ h) hs.

Section Platform.
Variable USERNAME : string.
Variable Icons : string → option string.

(** The constructor, with [installReactions] and [bindLanguageChange]. *)
Definition mount (cy : bool) (pr : Props) (favorites : FavoritesState) : Mounted :=
  {| world := construct cy pr favorites;
     disposers := [PlacesReaction; DistributionsReaction];
     registered := [PlacesReaction; DistributionsReaction; LanguageListener] |}.

(** [componentWillUnmount()]: every disposer is called, then the
    language listener is taken off. *)
Definition componentWillUnmount (i : Mounted) : Mounted :=
  {| world := world i;
     disposers := disposers i;
     registered := dispose LanguageListener
                     (foldl (λ hs d, dispose d hs) (registered i) (disposers i)) |}.

(** The handler an event would run, if any. *)
Definition handlerOf (ev : Event) : option Handler :=
  match ev with
  | PlacesReplaced _ => Some PlacesReaction
  | DistributionsReplaced _ => Some DistributionsReaction
  | LanguageChanged _ => Some LanguageListener
  | _ => None
  end.

(** An event reaches the instance: the store or the language changes in
    any case; the handler runs only while it is registered. The
    continuation of [checkForWSL] and the other events are no
    subscriptions and go through as before. *)
Definition dispatch (ev : Event) (i : Mounted) : result Mounted :=
  match handlerOf ev with
  | Some h =>
      if bool_decide (h ∈ registered i)
      then w ← step USERNAME Icons ev (world i);
           mret {| world := w; disposers := disposers i; registered := registered i |}
      else mret {| world := deliver ev (world i); disposers := disposers i;
                   registered := registered i |}
  | None =>
      w ← step USERNAME Icons ev (world i);
      mret {| world := w; disposers := disposers i; registered := registered i |}
  end.

Fixpoint dispatchAll (evs : list Event) (i : Mounted) : result Mounted :=
  match evs with
  | [] => mret i
  | ev :: evs => i' ← dispatch ev i; dispatchAll evs i'
  end.

(** Events that come from outside the component: the store, the
    language. *)
Definition fromOutside (ev : Event) : bool :=
  match ev with
  | ShortcutsReplaced _ | PlacesReplaced _ | DistributionsReplaced _
  | LanguageChanged _ => true
  | _ => false
  end.

End Platform.

End Lifetime.

(** ** Reading the router's trace and the alerter's state *)

Module RouterCalls.
Import Router.

(** The key that asks for the other pane: alt on macOS, ctrl elsewhere. *)
Definition modifier (isMac : bool) (e : MouseEvent) : bool :=
  if isMac then altKey e else ctrlKey e.

Definition isPaneSwitch (c : Call) : bool :=
  match c with
  | CallToggleSplitViewMode | CallSetActiveView _ => true
  | _ => false
  end.

(** The directory a navigation call asks for. *)
Definition destination (c : Call) : option string :=
  match c with
  | CallCd _ dir | CallAddCache _ dir => Some dir
  | _ => None
  end.

End RouterCalls.

Module AlertView.
Import AppAlert.

(** Every answer among the inputs finds a request outstanding, given
    the number outstanding at the start. *)
Fixpoint answerable (outstanding : nat) (ins : list Input) : bool :=
  match ins with
  | [] => true
  | Present _ :: ins => answerable (S outstanding) ins
  | Dismiss _ :: ins =>
      match outstanding with
      | 0 => false
      | S n => answerable n ins
      end
  end.

Definition outstanding (q : Queue) : nat :=
  length (option_list (current q)) + length (pending q).

End AlertView.

(** ** The settings state (second part of AppAlert.tsx) *)

Module Settings.
Import Stdlib.Strings.Ascii Js.

(** The double quote, as a character and as a string. *)
Definition quote : ascii := "034"%char.
Definition dq : string := String quote EmptyString.

(** [TERMINAL_CMD] *)
Definition TERMINAL_CMD_darwin : string :=
  "open -a " +:+ dq +:+ "%cmd" +:+ dq +:+ " " +:+ dq +:+ "%path" +:+ dq.
Definition TERMINAL_CMD_win : string :=
  "start /D " +:+ dq +:+ "%path" +:+ dq +:+ " " +:+ dq +:+ "%cd%" +:+ dq +:+ " "
  +:+ dq +:+ "%cmd" +:+ dq.
Definition TERMINAL_CMD_linux : string :=
  "cd " +:+ dq +:+ "%path" +:+ dq +:+ " && " +:+ dq +:+ "%cmd" +:+ dq.

(** [DEFAULT_TERMINAL] *)
Definition DEFAULT_TERMINAL_darwin : string := "Terminal.app".
Definition DEFAULT_TERMINAL_win : string := "C:\Windows\System32\cmd.exe".
Definition DEFAULT_TERMINAL_linux : string := "xterm".

(** What [utils/platform] exports. *)
Record Platform := mkPlatform {
  isMojave : bool;
  isWin : bool;
  isMac : bool;
  defaultFolder : string
}.

(** [s.startsWith(pat)], with what follows the prefix. *)
Fixpoint stripPrefix (pat s : string) : option string :=
  match pat, s with
  | EmptyString, _ => Some s
  | String a pat', String b s' => if Ascii.eqb a b then stripPrefix pat' s' else None
  | String _ _, EmptyString => None
  end.

(** The text before and after the first occurrence of [pat] in [s]. *)
Fixpoint splitAtFirst (pat s : string) : option (string * string) :=
  match stripPrefix pat s with
  | Some rest => Some (EmptyString, rest)
  | None =>
      match s with
      | EmptyString => None
      | String c s' =>
          match splitAtFirst pat s' with
          | Some (before, after) => Some (String c before, after)
          | None => None
          end
      end
  end.

(** The replacement text of [String.prototype.replace] for a string
    pattern: [$$], [$&], [$`] and [$'] are expanded, any other [$] stays
    (there are no captures to refer to). *)
Fixpoint substitute (matched before after rep : string) : string :=
  match rep with
  | EmptyString => EmptyString
  | String c rest =>
      if Ascii.eqb c "$" then
        match rest with
        | String d rest' =>
            if Ascii.eqb d "$" then String "$" (substitute matched before after rest')
            else if Ascii.eqb d "&" then matched +:+ substitute matched before after rest'
            else if Ascii.eqb d "`" then before +:+ substitute matched before after rest'
            else if Ascii.eqb d "'" then after +:+ substitute matched before after rest'
            else String c (substitute matched before after rest)
        | EmptyString => String c EmptyString
        end
      else String c (substitute matched before after rest)
  end.

(** [s.replace(pat, rep)] for a string pattern: the first occurrence. *)
Definition replace (pat rep s : string) : string :=
  match splitAtFirst pat s with
  | Some (before, after) => before +:+ substitute pat before after rep +:+ after
  | None => s
  end.

(** [s.replace(/"/g, '\\"')] *)
Fixpoint escapeQuotes (s : string) : string :=
  match s with
  | EmptyString => EmptyString
  | String c rest =>
      if Ascii.eqb c quote then String "\" (String quote (escapeQuotes rest))
      else String c (escapeQuotes rest)
  end.

(** The template [setDefaultTerminal] starts from. *)
Definition templateFor (pf : Platform) : string :=
  if isWin pf then TERMINAL_CMD_win
  else if isMac pf then TERMINAL_CMD_darwin
  else TERMINAL_CMD_linux.

(** [setDefaultTerminal(cmd)]: the new [defaultTerminal] and
    [terminalTemplate]. *)
Definition setDefaultTerminal (pf : Platform) (cmd : string) : string * string :=
  (cmd, replace "%cmd" (escapeQuotes cmd) (templateFor pf)).

(** [getTerminalCommand(path)] on a given [terminalTemplate]. *)
Definition getTerminalCommand (terminalTemplate dir : string) : string :=
  replace "%path" (escapeQuotes dir) terminalTemplate.

(** [darkMode]: a boolean or ['auto']. *)
Inductive DarkMode := Dark (active : bool) | Auto.

(** The object kept in local storage, as [saveSettings] writes it and
    [getParam] reads it back: a key is absent or holds a value of its
    field's type. *)
Record Stored := mkStored {
  lang : option string;
  darkMode : option DarkMode;
  storedFolder : option string;
  defaultTerminal : option string;
  version : option string
}.

(** [getDefaultSettings()] *)
Definition getDefaultSettings (pf : Platform) (appVersion : string) : Stored :=
  {| lang := Some "auto";
     darkMode := Some (if isMojave pf then Auto else Dark false);
     storedFolder := Some (defaultFolder pf);
     defaultTerminal :=
       Some (if isMac pf then DEFAULT_TERMINAL_darwin
             else if isWin pf then DEFAULT_TERMINAL_win
             else DEFAULT_TERMINAL_linux);
     version := Some appVersion |}.

(** One key of [Object.assign(target, source)]. *)
Definition assignKey {A} (target source : option A) : option A :=
  match source with
  | Some _ => source
  | None => target
  end.

(** [Object.assign(defaultSettings, settings)] *)
Definition assign (target source : Stored) : Stored :=
  {| lang := assignKey (lang target) (lang source);
     darkMode := assignKey (darkMode target) (darkMode source);
     storedFolder := assignKey (storedFolder target) (storedFolder source);
     defaultTerminal := assignKey (defaultTerminal target) (defaultTerminal source);
     version := assignKey (version target) (version source) |}.

(** [!settings.version || settings.version < this.version], the
    comparison being the one of strings. *)
Definition outdated (appVersion : string) (stored : option string) : bool :=
  match stored with
  | None => true
  | Some v => String.eqb v "" || String.ltb v appVersion
  end.

(** [loadAndUpgradeSettings()], given what local storage holds. *)
Definition loadAndUpgradeSettings (pf : Platform) (appVersion : string)
    (storage : option Stored) : Stored :=
  match storage with
  | None => getDefaultSettings pf appVersion
  | Some settings =>
      if outdated appVersion (version settings)
      then assign (getDefaultSettings pf appVersion) settings
      else settings
  end.

(** [saveSettings()]: what goes to local storage, given the fields of
    the instance; a field that is undefined leaves no key. *)
Definition saveSettings (lang0 : option string) (folder : option string)
    (dark : option DarkMode) (terminal : option string) (appVersion : string) : Stored :=
  {| lang := lang0; darkMode := dark; storedFolder := folder;
     defaultTerminal := terminal; version := Some appVersion |}.

(** The stored value of a key is still there. *)
Definition keeps {A} (stored result : option A) : Prop :=
  match stored with
  | Some v => result = Some v
  | None => True
  end.

(** No key is missing. *)
Definition complete (s : Stored) : bool :=
  truthy (lang s) && truthy (darkMode s) && truthy (storedFolder s)
  && truthy (defaultTerminal s) && truthy (version s).

(** No [$] in the text. *)
Fixpoint noDollar (s : string) : bool :=
  match s with
  | EmptyString => true
  | String c rest => negb (Ascii.eqb c "$") && noDollar rest
  end.

(** No [%] in the text. *)
Fixpoint noPercent (s : string) : bool :=
  match s with
  | EmptyString => true
  | String c rest => negb (Ascii.eqb c "%") && noPercent rest
  end.

(** Every double quote comes right after a backslash; [afterBackslash]
    says whether the text starts right after one. *)
Fixpoint wellQuoted (afterBackslash : bool) (s : string) : bool :=
  match s with
  | EmptyString => true
  | String c rest =>
      if Ascii.eqb c quote then afterBackslash && wellQuoted false rest
      else wellQuoted (Ascii.eqb c "\") rest
  end.

End Settings.

Module MoreSamples.
Import LeftPanel Samples.

(** What happens to a mounted panel before it goes away, and what the
    store and the language do afterwards. *)
Definition earlier : list Event := [PlacesReplaced [data]; Rendered "/data"].
Definition later : list Event := [PlacesReplaced []; LanguageChanged keys;
                                  ShortcutsReplaced []].

(** The panel instance after [earlier]. *)
Definition used : Lifetime.Mounted :=
  Eval vm_compute in
    match Lifetime.dispatchAll username icons earlier
            (Lifetime.mount false visible favorites) with
    | Js.Ok i => i
    | Js.Throw _ => Lifetime.mount false visible favorites
    end.

(** A Linux desktop. *)
Definition linux : Settings.Platform :=
  {| Settings.isMojave := false; Settings.isWin := false; Settings.isMac := false;
     Settings.defaultFolder := "/home/u" |}.

(** A Mac. *)
Definition mac : Settings.Platform :=
  {| Settings.isMojave := true; Settings.isWin := false; Settings.isMac := true;
     Settings.defaultFolder := "/Users/u" |}.

End MoreSamples.

(** * Properties *)

(** ** The selection tracker *)

Section Selection.
Import Js LeftPanel.

Lemma wf_ids (p : Panel) :
  wf p →
  (showDistributions p = false ∧
   ∃ g0 g1, nodes p = [g0; g1] ∧ groupId g0 = 0 ∧ groupId g1 = 1) ∨
  (showDistributions p = true ∧
   ∃ g0 g1 g2, nodes p = [g0; g1; g2] ∧ groupId g0 = 0 ∧ groupId g1 = 1 ∧ groupId g2 = 2).
Proof.
  unfold wf. destruct p as [ns sd]; simpl.
  destruct sd; intros H.
  - right. split; [done|].
    destruct ns as [|g0 [|g1 [|g2 [|? ?]]]]; try discriminate.
    injection H as ? ? ?. by exists g0, g1, g2.
  - left. split; [done|].
    destruct ns as [|g0 [|g1 [|? ?]]]; try discriminate.
    injection H as ? ?. by exists g0, g1.
Qed.

Lemma wf_shape (p : Panel) :
  wf p →
  (showDistributions p = false ∧ ∃ g0 g1, nodes p = [g0; g1]) ∨
  (showDistributions p = true ∧ ∃ g0 g1 g2, nodes p = [g0; g1; g2]).
Proof.
  intros H. destruct (wf_ids p H) as [[? (g0 & g1 & ? & _)]|[? (g0 & g1 & g2 & ? & _)]].
  - left. split; [done|]. by exists g0, g1.
  - right. split; [done|]. by exists g0, g1, g2.
Qed.

Lemma selectedIn_clear cs : selectedIn (clear cs) = [].
Proof.
  induction cs as [|c cs IH]; [done|].
  unfold selectedIn, clear in *. simpl. rewrite filter_cons_False; [done|].
  simpl. congruence.
Qed.

Lemma findByPath_clear dir cs :
  findByPath dir (clear cs) = prod_map id (set_isSelected false) <$> findByPath dir cs.
Proof. unfold findByPath, clear. by rewrite list_find_fmap. Qed.

Lemma findByPath_lookup dir cs i n :
  findByPath dir cs = Some (i, n) → cs !! i = Some n ∧ nodeData n = dir.
Proof. unfold findByPath. intros H. apply list_find_Some in H. tauto. Qed.




Lemma findByPath_app dir cs1 cs2 :
  findByPath dir (cs1 ++ cs2) =
  match findByPath dir cs1 with
  | Some r => Some r
  | None => prod_map (λ i, length cs1 + i) id <$> findByPath dir cs2
  end.
Proof.
  unfold findByPath. induction cs1 as [|c cs1 IH]; simpl.
  - destruct (list_find _ cs2) as [[? ?]|]; done.
  - case_decide; [done|]. rewrite IH.
    destruct (list_find _ cs1) as [[? ?]|]; [done|]. simpl.
    destruct (list_find _ cs2) as [[? ?]|]; done.
Qed.

End Selection.

Section SelectionMain.
Import Js LeftPanel.

Lemma blank_clear (cs : list TreeNode) : blank <$> clear cs = blank <$> cs.
Proof. unfold clear. rewrite <-list_fmap_compose. by apply list_fmap_ext. Qed.

Lemma blank_alter (cs : list TreeNode) (i : nat) (b : bool) :
  blank <$> alter (set_isSelected b) i cs = blank <$> cs.
Proof.
  revert i. induction cs as [|c cs IH]; intros [|i]; simpl; try done.
  f_equal. apply IH.
Qed.

Local Arguments findByPath : simpl never.
Local Arguments clear : simpl never.
Local Arguments selectedIn : simpl never.


Lemma selectFirst_app dir cs1 cs2 :
  selectFirst dir (cs1 ++ cs2) =
  match findByPath dir cs1 with
  | Some _ => selectFirst dir cs1 ++ clear cs2
  | None => clear cs1 ++ selectFirst dir cs2
  end.
Proof.
  unfold selectFirst. rewrite findByPath_app.
  destruct (findByPath dir cs1) as [[i n]|] eqn:E1.
  - apply findByPath_lookup in E1 as [Hi _]. apply lookup_lt_Some in Hi.
    unfold clear. rewrite fmap_app, alter_app_l; [done|]. by rewrite length_fmap.
  - destruct (findByPath dir cs2) as [[j m]|]; simpl.
    + unfold clear. rewrite fmap_app.
      rewrite <-(length_fmap (set_isSelected false) cs1). by rewrite alter_app_r.
    + unfold clear. by rewrite fmap_app.
Qed.





Lemma setActiveNode_keeps_shape (dir : string) (p : Panel) :
  wf p →
  ∃ p', setActiveNode dir p = Ok p' ∧ wf p' ∧
        showDistributions p' = showDistributions p.
Proof.
  intros Hwf. destruct (wf_shape p Hwf) as [[Hsd (g0 & g1 & Hn)]|[Hsd (g0 & g1 & g2 & Hn)]];
    destruct p as [ns sd]; simpl in *; subst;
    unfold setActiveNode, getNodeFromPath; simpl.
  - destruct (findByPath dir (clear (childNodes g0))) as [[i0 n0]|];
      [|destruct (findByPath dir (clear (childNodes g1))) as [[i1 n1]|]];
      simpl; (eexists; split; [reflexivity|]); split; try done; unfold wf in *; done.
  - destruct (findByPath dir (clear (childNodes g0))) as [[i0 n0]|];
      [|destruct (findByPath dir (clear (childNodes g1))) as [[i1 n1]|];
        [|destruct (findByPath dir (clear (childNodes g2))) as [[i2 n2]|]]];
      simpl; (eexists; split; [reflexivity|]); split; try done; unfold wf in *; done.
Qed.

End SelectionMain.

(** ** The tree synchronizer *)

Section Synchronizer.
Import Js LeftPanel.
Variable USERNAME : string.
Variable Icons : string → option string.

Local Abbreviation buildNodes := (LeftPanel.buildNodes USERNAME Icons).
Local Abbreviation rebuiltTree := (LeftPanel.rebuiltTree USERNAME Icons).
Local Abbreviation step := (LeftPanel.step USERNAME Icons).
Local Abbreviation run := (LeftPanel.run USERNAME Icons).

Lemma wf_initialState pr : wf (initialState pr).
Proof. reflexivity. Qed.

Lemma buildNodes_rebuilds pr favorites p :
  wf p → buildNodes pr favorites p = Ok (rebuiltTree pr favorites p).
Proof.
  intros Hwf.
  destruct (wf_ids p Hwf) as [[Hsd (g0 & g1 & Hn & H0 & H1)]
                             |[Hsd (g0 & g1 & g2 & Hn & H0 & H1 & H2)]];
    destruct p as [ns sd]; simpl in *; subst;
    unfold LeftPanel.buildNodes, LeftPanel.rebuiltTree, rebuiltGroup, set_nodes; simpl.
  - destruct g0, g1; simpl in *; subst. reflexivity.
  - destruct g0, g1, g2; simpl in *; subst.
    destruct (distributions favorites); reflexivity.
Qed.

Lemma wf_rebuiltTree pr favorites p : wf p → wf (rebuiltTree pr favorites p).
Proof.
  unfold wf, LeftPanel.rebuiltTree. simpl. intros <-.
  rewrite <-list_fmap_compose. apply list_fmap_ext. intros _ g _.
  unfold rebuiltGroup. simpl. by destruct (groupId g) as [|[|?]].
Qed.


Lemma wf_hasExtraGroup p : wf p → hasExtraGroup p = showDistributions p.
Proof.
  intros Hwf.
  destruct (wf_ids p Hwf) as [[Hsd (g0 & g1 & Hn & _)]
                             |[Hsd (g0 & g1 & g2 & Hn & _ & _ & H2)]];
    unfold hasExtraGroup; rewrite Hn, Hsd; simpl; [done|].
  by rewrite H2.
Qed.

Lemma wf_onNodeToggle g p : wf p → wf (onNodeToggle g p).
Proof.
  unfold wf, onNodeToggle. simpl. intros <-.
  apply list_eq. intros i. rewrite !list_lookup_fmap.
  destruct (decide (g = i)) as [->|Hne].
  - rewrite list_lookup_alter_eq. by destruct (nodes p !! i).
  - by rewrite list_lookup_alter_ne.
Qed.

Lemma reactionEffect_rebuilds w :
  wf (panel w) →
  reactionEffect USERNAME Icons w =
  Ok (if hide (props w) then w
      else set_panel (rebuiltTree (props w) (favoritesState w) (panel w)) w).
Proof.
  intros Hwf. unfold reactionEffect.
  destruct (hide (props w)); simpl; [done|].
  by rewrite buildNodes_rebuilds.
Qed.

Lemma onLanguageChanged_rebuilds w :
  wf (panel w) →
  onLanguageChanged USERNAME Icons w =
  Ok (set_panel (rebuiltTree (props w) (favoritesState w) (panel w)) w).
Proof. intros Hwf. unfold onLanguageChanged. by rewrite buildNodes_rebuilds. Qed.

Lemma step_total ev w :
  wfWorld w →
  ∃ w', step ev w = Ok w' ∧ wfWorld w' ∧
        showDistributions (panel w') =
          showDistributions (panel w) || (probePending w && settlesTruthy ev) ∧
        probePending w' = probePending w && negb (isSettlement ev).
Proof.
  intros [Hwf Hpend]. destruct ev; simpl.
  - eexists; split; [reflexivity|]. unfold wfWorld; simpl.
    rewrite !andb_false_r, !orb_false_r, !andb_true_r. done.
  - rewrite reactionEffect_rebuilds by done. eexists; split; [reflexivity|].
    simpl. destruct (hide (props w)); unfold wfWorld; simpl;
      rewrite !andb_false_r, !orb_false_r, !andb_true_r;
      repeat split; auto using wf_rebuiltTree.
  - rewrite reactionEffect_rebuilds by done. eexists; split; [reflexivity|].
    simpl. destruct (hide (props w)); unfold wfWorld; simpl;
      rewrite !andb_false_r, !orb_false_r, !andb_true_r;
      repeat split; auto using wf_rebuiltTree.
  - rewrite onLanguageChanged_rebuilds by done. eexists; split; [reflexivity|].
    unfold wfWorld; simpl.
    rewrite !andb_false_r, !orb_false_r, !andb_true_r;
      repeat split; auto using wf_rebuiltTree.
  - eexists; split; [reflexivity|]. unfold wfWorld; simpl.
    rewrite !andb_false_r, !orb_false_r, !andb_true_r. done.
  - destruct (probePending w) eqn:Ep; simpl.
    + specialize (Hpend eq_refl).
      destruct r as [[|]|]; simpl; (eexists; split; [reflexivity|]);
        unfold wfWorld, wf in *; simpl; rewrite ?Hpend in *; simpl;
        repeat split; try done.
      rewrite fmap_app, Hwf. done.
    + eexists; split; [reflexivity|]. unfold wfWorld. rewrite Ep.
      rewrite orb_false_r. done.
  - destruct (setActiveNode_keeps_shape activePath (panel w) Hwf) as (p' & -> & Hwf' & Hsd).
    simpl. eexists; split; [reflexivity|]. unfold wfWorld; simpl.
    rewrite !andb_false_r, !orb_false_r, !andb_true_r, Hsd. done.
  - eexists; split; [reflexivity|]. unfold wfWorld; simpl.
    rewrite !andb_false_r, !orb_false_r, !andb_true_r.
    repeat split; auto using wf_onNodeToggle.
Qed.

Lemma probeTruthy_settled evs : probeTruthy false evs = false.
Proof. induction evs as [|ev evs IH]; simpl; [done|]. by destruct (isSettlement ev). Qed.

Lemma run_total evs w :
  wfWorld w →
  ∃ w', run evs w = Ok w' ∧ wfWorld w' ∧
        showDistributions (panel w') =
          showDistributions (panel w) || probeTruthy (probePending w) evs.
Proof.
  revert w. induction evs as [|ev evs IH]; intros w Hw; simpl.
  - exists w. by rewrite orb_false_r.
  - destruct (step_total ev w Hw) as (w1 & -> & Hw1 & Hsd & Hp). simpl.
    destruct (IH w1 Hw1) as (w' & Hrun & Hw' & Hsd').
    exists w'. split; [done|]. split; [done|].
    rewrite Hsd', Hsd, Hp.
    destruct (isSettlement ev) eqn:Es; simpl.
    + rewrite andb_false_r, probeTruthy_settled, orb_false_r. done.
    + rewrite andb_true_r.
      assert (settlesTruthy ev = false) as -> by (by destruct ev as [| | | | |[[|]|]| |]).
      by rewrite andb_false_r, orb_false_r.
Qed.

Lemma wfWorld_construct cy pr favorites : wfWorld (construct cy pr favorites).
Proof. split; [apply wf_initialState|done]. Qed.

Lemma run_app evs more w :
  run (evs ++ more) w = (run evs w ≫= run more).
Proof.
  revert w. induction evs as [|ev evs IH]; intros w; simpl; [done|].
  destruct (step ev w); simpl; [apply IH|done].
Qed.

(** C3 (amended): when the probe resolves truthy the panel sets its flag
    and appends, after the fixed groups, the extra group with no entries,
    expanded; a falsy result leaves the groups as they are. Over any run
    of events from construction nothing raises, the extra group is in the
    model exactly when the probe resolved truthy, and whatever follows
    keeps it there. The probe's own continuation rebuilds nothing. *)
Theorem probe_appends_extra_group (cy : bool) (pr : Props) (favorites : FavoritesState)
    (evs more : list Event) (p : Panel) :
  checkForWSL pr true p =
    {| nodes := nodes p ++
         [ {| groupId := 2; hasCaret := true; isExpanded := true;
              groupLabel := t pr "FAVORITES_PANEL.LINUX"; childNodes := [] |} ];
       showDistributions := true |} ∧
  nodes (checkForWSL pr false p) = nodes p ∧
  ∃ w, run evs (construct cy pr favorites) = Ok w ∧
       hasExtraGroup (panel w) = probeTruthy (negb cy) evs ∧
       showDistributions (panel w) = probeTruthy (negb cy) evs ∧
       groupId <$> nodes (panel w) =
         (if probeTruthy (negb cy) evs then [0; 1; 2] else [0; 1]) ∧
       ∃ w2, run (evs ++ more) (construct cy pr favorites) = Ok w2 ∧
             implb (hasExtraGroup (panel w)) (hasExtraGroup (panel w2)) = true.
Proof.
  split; [reflexivity|]. split; [reflexivity|].
  destruct (run_total evs _ (wfWorld_construct cy pr favorites)) as (w & Hrun & Hw & Hsd).
  simpl in Hsd. exists w. split; [done|].
  destruct Hw as [Hwf Hp]. rewrite (wf_hasExtraGroup _ Hwf).
  split; [done|]. split; [done|]. split.
  { unfold wf in Hwf. by rewrite Hwf, Hsd. }
  destruct (run_total more w (conj Hwf Hp)) as (w2 & Hrun2 & [Hwf2 _] & Hsd2).
  exists w2. rewrite run_app, Hrun. simpl. split; [done|].
  rewrite (wf_hasExtraGroup _ Hwf2), Hsd2.
  by destruct (showDistributions (panel w)).
Qed.

(** C4 (amended): three events make the panel rebuild: a replaced places
    collection and a replaced extra-category collection, each only while
    the panel is not hidden, and a language change. A replaced shortcuts
    collection triggers nothing. Every trigger runs the same full
    rebuild: each group present gets the mapped image of its current
    collection and its localized header. *)
Theorem rebuild_triggers (w : World) (l : list Favorite) (o : option (list Favorite))
    (t' : string → string) :
  wf (panel w) →
  step (ShortcutsReplaced l) w = Ok (deliver (ShortcutsReplaced l) w) ∧
  panel (deliver (ShortcutsReplaced l) w) = panel w ∧
  step (PlacesReplaced l) w =
    Ok (let w' := deliver (PlacesReplaced l) w in
        if hide (props w) then w'
        else set_panel (rebuiltTree (props w') (favoritesState w') (panel w)) w') ∧
  step (DistributionsReplaced o) w =
    Ok (let w' := deliver (DistributionsReplaced o) w in
        if hide (props w) then w'
        else set_panel (rebuiltTree (props w') (favoritesState w') (panel w)) w') ∧
  step (LanguageChanged t') w =
    Ok (let w' := deliver (LanguageChanged t') w in
        set_panel (rebuiltTree (props w') (favoritesState w') (panel w)) w').
Proof.
  intros Hwf. split; [reflexivity|]. split; [reflexivity|].
  split; [|split]; simpl.
  - by rewrite reactionEffect_rebuilds.
  - by rewrite reactionEffect_rebuilds.
  - by rewrite onLanguageChanged_rebuilds.
Qed.

(** C10 (amended): while [hide] is true a places or distributions change
    notification runs no rebuild: the handler returns normally and the
    tree model is the one there was before. The language-change handler
    has no such guard: also while [hide] is true it rebuilds every group
    present from what the store holds at that moment. *)
Theorem hidden_panel_rebuilds_on_language_only (w : World) (l : list Favorite)
    (o : option (list Favorite)) (t' : string → string) :
  hide (props w) = true →
  wf (panel w) →
  (∃ w', step (PlacesReplaced l) w = Ok w' ∧ panel w' = panel w) ∧
  (∃ w', step (DistributionsReplaced o) w = Ok w' ∧ panel w' = panel w) ∧
  (∃ w', step (LanguageChanged t') w = Ok w' ∧
         hide (props w') = true ∧
         panel w' =
           rebuiltTree {| hide := true; t := t' |} (favoritesState w) (panel w)).
Proof.
  intros Hhide Hwf. split; [|split].
  - simpl; unfold reactionEffect; simpl; rewrite Hhide; simpl.
    eexists; split; reflexivity.
  - simpl; unfold reactionEffect; simpl; rewrite Hhide; simpl.
    eexists; split; reflexivity.
  - simpl. rewrite onLanguageChanged_rebuilds by done. rewrite Hhide.
    eexists; split; [reflexivity|]. by split.
Qed.

(** C9 (amended): a rebuild never raises, whatever label or icon data is
    missing; the node of such an entry carries the gap along. A places or
    extra-category entry without label and icon gets an empty label and
    no icon; a shortcut without label gets the localization of the key
    built from [undefined] and whatever the icon table holds under
    [undefined]. Nothing falls back to the raw path or to a neutral
    icon. *)
Theorem rebuild_never_raises (pr : Props) (favorites : FavoritesState) (p : Panel)
    (dir : string) (label icon' : option string) :
  wf p →
  buildNodes pr favorites p = Ok (rebuiltTree pr favorites p) ∧
  wf (rebuiltTree pr favorites p) ∧
  let unlabelled := {| fav_label := None; fav_path := dir; fav_icon := icon' |} in
  let iconless := {| fav_label := label; fav_path := dir; fav_icon := None |} in
  nodeLabel (placeNode unlabelled) = {| title := dir; content := None |} ∧
  nodeLabel (distribNode unlabelled) = {| title := dir; content := None |} ∧
  icon (placeNode iconless) = None ∧
  icon (distribNode iconless) = None ∧
  nodeLabel (shortcutNode USERNAME Icons pr unlabelled) =
    {| title := dir; content := Some (t pr "FAVORITES_PANEL.undefined") |} ∧
  icon (shortcutNode USERNAME Icons pr unlabelled) = Icons "undefined".
Proof.
  intros Hwf. split; [by apply buildNodes_rebuilds|].
  split; [by apply wf_rebuiltTree|].
  simpl. repeat split; reflexivity.
Qed.

(** Identities: the prefix is fixed per group block, and the shortcut
    prefix differs from the one places and extra entries share. *)
Lemma identity_is_prefix_and_path pr (f : Favorite) :
  nodeId (shortcutNode USERNAME Icons pr f) = "s_" +:+ fav_path f ∧
  nodeId (placeNode f) = "p_" +:+ fav_path f ∧
  nodeId (distribNode f) = "p_" +:+ fav_path f.
Proof. repeat split; reflexivity. Qed.

Lemma shortcut_identity_apart pr (f f' : Favorite) :
  nodeId (shortcutNode USERNAME Icons pr f) ≠ nodeId (placeNode f') ∧
  nodeId (shortcutNode USERNAME Icons pr f) ≠ nodeId (distribNode f').
Proof. split; simpl; intros H; discriminate H. Qed.

End Synchronizer.

(** *** The tree on the sample data *)

Section TreeExamples.
Import Js LeftPanel Samples.


(** The spec's example: with the home shortcut in the tree and the
    active pane at its path, that node alone is selected. *)
Example home_is_selected :
  ∃ p', setActiveNode "/home/u" tree = Ok p' ∧
        isSelected <$> entries p' = [Some true; Some false; Some false].
Proof. eexists. split; reflexivity. Qed.

(** C3, the claim as stated fails: the store holds a distribution, the
    probe resolves truthy, and the extra group is appended empty; its
    entries are not rebuilt from the store. *)
Lemma probe_leaves_extra_group_empty :
  ∃ w', step username icons (ProbeSettled (Some true)) fresh = Ok w' ∧
        distributions (favoritesState w') = Some [ubuntu] ∧
        childNodes <$> nodes (panel w') !! 2 = Some [] ∧
        childNodes <$> nodes (panel w') !! 2 ≠ Some (distribNode <$> [ubuntu]).
Proof. eexists. repeat split; try reflexivity. discriminate. Qed.

(** C4, the claim as stated fails: a places change rebuilds the
    shortcuts group as well (here from no entries to one), and a
    shortcuts change rebuilds nothing, leaving the tree behind the
    store. *)
Lemma places_change_rebuilds_shortcuts :
  ∃ w' w'',
    step username icons (PlacesReplaced [data]) fresh = Ok w' ∧
    childNodes <$> nodes (panel fresh) !! 0 = Some [] ∧
    childNodes <$> nodes (panel w') !! 0 = Some [shortcutNode username icons visible home] ∧
    childNodes <$> nodes (panel w') !! 0 ≠ childNodes <$> nodes (panel fresh) !! 0 ∧
    step username icons (ShortcutsReplaced []) w' = Ok w'' ∧
    shortcuts (favoritesState w'') = [] ∧
    childNodes <$> nodes (panel w'') !! 0 = Some [shortcutNode username icons visible home].
Proof. do 2 eexists. repeat split; try reflexivity. discriminate. Qed.

Lemma rebuild_triggers_witness :
  wf (panel fresh) ∧
  step username icons (ShortcutsReplaced [data]) fresh =
    Ok (deliver (ShortcutsReplaced [data]) fresh) ∧
  panel (deliver (ShortcutsReplaced [data]) fresh) = panel fresh ∧
  step username icons (PlacesReplaced [data]) fresh =
    Ok (let w' := deliver (PlacesReplaced [data]) fresh in
        if hide (props fresh) then w'
        else set_panel (rebuiltTree username icons (props w') (favoritesState w')
                          (panel fresh)) w') ∧
  step username icons (DistributionsReplaced None) fresh =
    Ok (let w' := deliver (DistributionsReplaced None) fresh in
        if hide (props fresh) then w'
        else set_panel (rebuiltTree username icons (props w') (favoritesState w')
                          (panel fresh)) w') ∧
  step username icons (LanguageChanged keys) fresh =
    Ok (let w' := deliver (LanguageChanged keys) fresh in
        set_panel (rebuiltTree username icons (props w') (favoritesState w')
                     (panel fresh)) w').
Proof.
  split; [reflexivity|].
  apply (rebuild_triggers username icons fresh [data] None keys). reflexivity.
Defined.

Lemma hidden_panel_rebuilds_on_language_only_witness :
  hide (props concealed) = true ∧
  wf (panel concealed) ∧
  (∃ w', step username icons (PlacesReplaced [data]) concealed = Ok w' ∧
         panel w' = panel concealed) ∧
  (∃ w', step username icons (DistributionsReplaced None) concealed = Ok w' ∧
         panel w' = panel concealed) ∧
  (∃ w', step username icons (LanguageChanged keys) concealed = Ok w' ∧
         hide (props w') = true ∧
         panel w' =
           rebuiltTree username icons {| hide := true; t := keys |}
             (favoritesState concealed) (panel concealed)).
Proof.
  split; [reflexivity|]. split; [by split|].
  apply (hidden_panel_rebuilds_on_language_only username icons concealed [data] None keys).
  - reflexivity.
  - by split.
Defined.

(** C10, the claim as stated fails: the panel is hidden throughout, its
    tree is empty, the places are replaced, which the hidden panel lets
    pass, and then the language changes: the tree now shows the store's
    shortcut and the replaced place, resynchronized while hidden. *)
Lemma hidden_panel_follows_language_change :
  hide (props concealed) = true ∧
  nodeData <$> entries (panel concealed) = [] ∧
  (∃ w', run username icons [PlacesReplaced [home]] concealed = Ok w' ∧
         hide (props w') = true ∧
         nodeData <$> entries (panel w') = []) ∧
  (∃ w', run username icons [PlacesReplaced [home]; LanguageChanged keys] concealed = Ok w' ∧
         hide (props w') = true ∧
         nodeData <$> entries (panel w') = ["/home/u"; "/home/u"] ∧
         panel w' ≠ panel concealed).
Proof.
  split; [reflexivity|]. split; [reflexivity|].
  split; eexists; (split; [reflexivity|]); repeat split; try reflexivity.
  discriminate.
Qed.

(** C9, the claim as stated fails: a place without label and icon is
    rebuilt into a node whose label is empty, not the raw path, and
    which has no icon at all. *)
Lemma missing_label_has_no_fallback :
  ∃ p' n, buildNodes username icons visible gappy (initialState visible) = Ok p' ∧
          childNodes <$> nodes p' !! 1 = Some [n] ∧
          nodeData n = "/data" ∧
          content (nodeLabel n) ≠ Some "/data" ∧
          content (nodeLabel n) = None ∧
          icon n = None.
Proof. do 2 eexists. repeat split; try reflexivity. discriminate. Qed.

Lemma rebuild_never_raises_witness :
  wf (initialState visible) ∧
  buildNodes username icons visible gappy (initialState visible) =
    Ok (rebuiltTree username icons visible gappy (initialState visible)) ∧
  wf (rebuiltTree username icons visible gappy (initialState visible)) ∧
  nodeLabel (placeNode bare) = {| title := "/data"; content := None |} ∧
  nodeLabel (distribNode bare) = {| title := "/data"; content := None |} ∧
  icon (placeNode bare) = None ∧
  icon (distribNode bare) = None ∧
  nodeLabel (shortcutNode username icons visible bare) =
    {| title := "/data"; content := Some (t visible "FAVORITES_PANEL.undefined") |} ∧
  icon (shortcutNode username icons visible bare) = icons "undefined".
Proof.
  split; [reflexivity|].
  apply (rebuild_never_raises username icons visible gappy (initialState visible)
           "/data" None None).
  reflexivity.
Defined.

(** C8, the code at the failing input: a place and an extra-category
    entry with the same path are rebuilt into nodes of different groups
    that carry one and the same identity. *)
Theorem extra_and_place_share_identity :
  ∃ p' n1 n2,
    buildNodes username icons visible overlapping
      (checkForWSL visible true (initialState visible)) = Ok p' ∧
    childNodes <$> nodes p' !! 1 = Some [n1] ∧
    childNodes <$> nodes p' !! 2 = Some [n2] ∧
    nodeData n1 = nodeData n2 ∧
    nodeId n1 = "p_/data" ∧
    nodeId n2 = "p_/data".
Proof. do 3 eexists. repeat split; reflexivity. Qed.

End TreeExamples.

(** ** The navigation router *)

Section Routing.
Import Js Router.

Lemma navigate_calls nav c v dir a before :
  calls (navigate nav c v dir a before) = before ++ [c].
Proof. unfold navigate. by destruct (nav v dir) as [[|?]|?]. Qed.

Lemma navigate_flags nav c v dir a before :
  splitView (app (navigate nav c v dir a before)) = splitView a ∧
  activeView (app (navigate nav c v dir a before)) = activeView a.
Proof. unfold navigate. by destruct (nav v dir) as [[|?]|?], v. Qed.

Lemma onNodeClick_host isMac nav dir e a :
  host (onNodeClick isMac nav dir e a) =
  app (openFavorite nav dir (negb (if isMac then altKey e else ctrlKey e)) a).
Proof. unfold onNodeClick. by destruct (thrown _). Qed.

Lemma onNodeClick_navigations isMac nav dir e a :
  filter isNavigation (trace (onNodeClick isMac nav dir e a)) =
  filter isNavigation
    (calls (openFavorite nav dir (negb (if isMac then altKey e else ctrlKey e)) a)).
Proof.
  unfold onNodeClick. destruct (thrown _); simpl; [|done].
  rewrite filter_app. simpl. by rewrite app_nil_r.
Qed.

(** X9: only an exception raised while [openFavorite] runs reaches the
    [catch] clause: whatever the promises do, a navigator that returns
    them yields no alert. *)
Lemma alerts_need_a_raise isMac nav dir e a :
  (∀ v d, ∃ s, nav v d = Returns s) →
  filter isAlert (trace (onNodeClick isMac nav dir e a)) = [].
Proof.
  intros Hnav.
  assert (Hn : ∀ c v d a0 before,
             thrown (navigate nav c v d a0 before) = None).
  { intros c v d a0 before. unfold navigate.
    destruct (Hnav v d) as [s ->]. by destruct s. }
  unfold onNodeClick, openFavorite.
  destruct (negb _).
  - destruct (getActiveCache a) as [c|]; [|done].
    case_decide; [|done].
    rewrite Hn, navigate_calls. done.
  - destruct (negb (splitView a)); case_decide;
      rewrite ?Hn, ?navigate_calls; done.
Qed.

(** X10: when [openFavorite] raises, the handler shows exactly one
    alert, with the error's text and code and the intent ['danger']. *)
Lemma raise_is_reported (isMac : bool) nav dir (e : MouseEvent) a err :
  thrown (openFavorite nav dir (negb (if isMac then altKey e else ctrlKey e)) a) = Some err →
  filter isAlert (trace (onNodeClick isMac nav dir e a)) =
  [CallAlertShow (message err +:+ " (" +:+ toString (code err) +:+ ")") "danger"].
Proof.
  intros Hthrown. unfold onNodeClick. rewrite Hthrown. simpl.
  rewrite filter_app. simpl.
  assert (filter isAlert (calls (openFavorite nav dir
            (negb (if isMac then altKey e else ctrlKey e)) a)) = []) as ->; [|done].
  unfold openFavorite.
  destruct (negb _).
  - destruct (getActiveCache a) as [c|]; [|done].
    case_decide; [|done]. by rewrite navigate_calls.
  - destruct (negb (splitView a)); case_decide; rewrite ?navigate_calls; done.
Qed.

(** C7: on an activation without the modifier, an active pane that is
    not ready (or no active pane at all) means nothing happens: the host
    is untouched and neither a navigation nor a prompt is issued; a
    ready active pane is told, once, to navigate to the node's path. *)
Theorem same_view_waits_for_ready (isMac : bool) (nav : Navigator) (dir : string)
    (e : MouseEvent) (a : AppState) :
  (if isMac then altKey e else ctrlKey e) = false →
  if activeReady a
  then head (trace (onNodeClick isMac nav dir e a)) = Some (CallCd (activeView a) dir) ∧
       filter isNavigation (trace (onNodeClick isMac nav dir e a)) =
         [CallCd (activeView a) dir]
  else onNodeClick isMac nav dir e a = {| host := a; trace := []; unhandled := [] |}.
Proof.
  intros Hmod. unfold activeReady, onNodeClick, openFavorite. rewrite Hmod. simpl.
  destruct (getActiveCache a) as [c|]; [|done].
  destruct (decide (status c = "ok")) as [Hs|Hs].
  - rewrite bool_decide_eq_true_2 by done.
    unfold navigate. by destruct (nav (activeView a) dir) as [[|?]|?].
  - by rewrite bool_decide_eq_false_2.
Qed.

(** C6: on an activation with the modifier, a host that is not split
    goes into split mode with the second pane active; a host that is
    split makes its inactive pane the active one; either way the pane
    made active gets a navigate call to the node's path exactly when the
    path it shows differs, and no other navigation is issued. *)
Theorem alternate_view_navigates_if_needed (isMac : bool) (nav : Navigator)
    (dir : string) (e : MouseEvent) (a : AppState) :
  (if isMac then altKey e else ctrlKey e) = true →
  (splitView a = false → activeView a = View0) →
  splitView (host (onNodeClick isMac nav dir e a)) = true ∧
  activeView (host (onNodeClick isMac nav dir e a)) =
    (if splitView a then getInactiveView a else View1) ∧
  head (trace (onNodeClick isMac nav dir e a)) =
    Some (if splitView a then CallSetActiveView (getInactiveView a)
          else CallToggleSplitViewMode) ∧
  filter isNavigation (trace (onNodeClick isMac nav dir e a)) =
    (let pane := activeView (host (onNodeClick isMac nav dir e a)) in
     if decide (path (getVisibleCache pane a) = dir) then []
     else [CallAddCache pane dir]).
Proof.
  intros Hmod Hwf.
  rewrite onNodeClick_host, onNodeClick_navigations.
  unfold onNodeClick, openFavorite. rewrite Hmod. simpl.
  destruct (splitView a) eqn:Hs; simpl.
  - assert (Hv : ∀ v, getVisibleCache v (setActiveView (getInactiveView a) a)
                      = getVisibleCache v a) by (by intros []).
    rewrite Hv.
    destruct (decide (path (getVisibleCache (getInactiveView a) a) = dir)) as [Heq|Hne].
    + rewrite decide_False by (intros H; by apply H). simpl.
      rewrite decide_True by done. done.
    + rewrite decide_True by done.
      destruct (navigate_flags nav (CallAddCache (getInactiveView a) dir)
                  (getInactiveView a) dir (setActiveView (getInactiveView a) a)
                  [CallSetActiveView (getInactiveView a)]) as [-> ->].
      simpl. rewrite decide_False by done.
      unfold navigate.
      destruct (nav (getInactiveView a) dir) as [[|?]|?]; simpl; repeat split; done.
  - specialize (Hwf eq_refl).
    assert (Hv : ∀ v, getVisibleCache v (toggleSplitViewMode a) = getVisibleCache v a)
      by (by intros []).
    rewrite Hv. unfold getInactiveView. rewrite Hwf. simpl.
    destruct (decide (path (cache1 a) = dir)) as [Heq|Hne].
    + rewrite decide_False by (intros H; by apply H). simpl.
      rewrite Hs. simpl. rewrite decide_True by done. done.
    + rewrite decide_True by done.
      destruct (navigate_flags nav (CallAddCache View1 dir) View1 dir
                  (toggleSplitViewMode a) [CallToggleSplitViewMode]) as [-> ->].
      simpl. rewrite Hs. simpl. rewrite decide_False by done.
      unfold navigate.
      destruct (nav View1 dir) as [[|?]|?]; simpl; repeat split; done.
Qed.

End Routing.

(** *** The router on the sample data *)

Section RoutingExamples.
Import Js Router RouterSamples.

(** C1, the code at the failing input: the active pane is ready, the
    click asks for the same view, and the navigation promise rejects
    with text and code. [openFavorite] has let go of the promise, so the
    handler shows no prompt and the rejection is left unhandled; the
    same happens on the alternate-pane path. *)
Theorem rejected_navigation_goes_unreported :
  onNodeClick false refusing "/root" plainClick single =
    {| host := single; trace := [CallCd View0 "/root"]; unhandled := [denied] |} ∧
  filter isAlert (trace (onNodeClick false refusing "/root" plainClick single)) = [] ∧
  trace (onNodeClick false refusing "/root" ctrlClick single) =
    [CallToggleSplitViewMode; CallAddCache View1 "/root"] ∧
  unhandled (onNodeClick false refusing "/root" ctrlClick single) = [denied].
Proof. repeat split; reflexivity. Qed.

(** A failure raised before the call returns does reach the prompt. *)
Example raised_failure_is_shown :
  trace (onNodeClick false (λ _ _, Raises denied) "/root" plainClick single) =
    [CallCd View0 "/root"; CallAlertShow "permission denied (EACCES)" "danger"].
Proof. reflexivity. Qed.

Lemma same_view_waits_for_ready_witness :
  (if false then altKey plainClick else ctrlKey plainClick) = false ∧
  if activeReady loading
  then head (trace (onNodeClick false willing "/data" plainClick loading)) =
         Some (CallCd (activeView loading) "/data") ∧
       filter isNavigation (trace (onNodeClick false willing "/data" plainClick loading)) =
         [CallCd (activeView loading) "/data"]
  else onNodeClick false willing "/data" plainClick loading =
         {| host := loading; trace := []; unhandled := [] |}.
Proof.
  split; [reflexivity|].
  apply (same_view_waits_for_ready false willing "/data" plainClick loading).
  reflexivity.
Defined.

(** Same view, pane still loading: nothing at all happens. *)
Example loading_pane_is_left_alone :
  onNodeClick false willing "/data" plainClick loading =
    {| host := loading; trace := []; unhandled := [] |}.
Proof. reflexivity. Qed.

(** Same view, pane ready: one [cd] to the node's path. *)
Example ready_pane_navigates :
  trace (onNodeClick false willing "/data" plainClick single) = [CallCd View0 "/data"] ∧
  path (cache0 (host (onNodeClick false willing "/data" plainClick single))) = "/data".
Proof. split; reflexivity. Qed.

Lemma alternate_view_navigates_if_needed_witness :
  (if false then altKey ctrlClick else ctrlKey ctrlClick) = true ∧
  (splitView single = false → activeView single = View0) ∧
  splitView (host (onNodeClick false willing "/data" ctrlClick single)) = true ∧
  activeView (host (onNodeClick false willing "/data" ctrlClick single)) =
    (if splitView single then getInactiveView single else View1) ∧
  head (trace (onNodeClick false willing "/data" ctrlClick single)) =
    Some (if splitView single then CallSetActiveView (getInactiveView single)
          else CallToggleSplitViewMode) ∧
  filter isNavigation (trace (onNodeClick false willing "/data" ctrlClick single)) =
    (let pane := activeView (host (onNodeClick false willing "/data" ctrlClick single)) in
     if decide (path (getVisibleCache pane single) = "/data") then []
     else [CallAddCache pane "/data"]).
Proof.
  split; [reflexivity|]. split; [reflexivity|].
  apply (alternate_view_navigates_if_needed false willing "/data" ctrlClick single);
    reflexivity.
Defined.

(** The spec's example: not split, a click on [/data] asking for the
    other pane: split on, second pane active and navigated to [/data];
    the same click again, from the first pane, navigates nowhere. *)
Example open_in_other_pane :
  onNodeClick false willing "/data" ctrlClick single =
    {| host := {| splitView := true; activeView := View1;
                  cache0 := {| path := "/home/u"; status := "ok" |};
                  cache1 := {| path := "/data"; status := "ok" |};
                  explorer := true |};
       trace := [CallToggleSplitViewMode; CallAddCache View1 "/data"];
       unhandled := [] |} ∧
  trace (onNodeClick false willing "/data" ctrlClick
           (setActiveView View0
              (host (onNodeClick false willing "/data" ctrlClick single)))) =
    [CallSetActiveView View1].
Proof. split; reflexivity. Qed.

End RoutingExamples.

(** ** The alert queue *)

Section AlertQueue.
Import Js AppAlert.

Lemma servedLog_app d l1 l2 :
  servedLog d (l1 ++ l2) = servedLog d l1 ++ servedLog (d + length l1) l2.
Proof.
  revert d. induction l1 as [|[req res] l1 IH]; intros d; simpl.
  - by rewrite Nat.add_0_r.
  - rewrite IH. by replace (S d + length l1) with (d + S (length l1)) by lia.
Qed.

Lemma waiters_of (n : nat) (l : list Request) :
  filter (λ w : nat * Request, w.1 = n) ((λ req, (n, req)) <$> l) = (λ req, (n, req)) <$> l.
Proof.
  induction l as [|r l IH]; [done|]. rewrite fmap_cons.
  rewrite filter_cons_True by done. by rewrite IH.
Qed.

Lemma waiters_of_others (n : nat) (l : list Request) :
  filter (λ w : nat * Request, w.1 ≠ n) ((λ req, (n, req)) <$> l) = [].
Proof.
  induction l as [|r l IH]; [done|]. rewrite fmap_cons.
  rewrite filter_cons_False by (simpl; intros H; by apply H). exact IH.
Qed.

Lemma waiters_requests (n : nat) (l : list Request) :
  ((λ req : Request, (n, req)) <$> l).*2 = l.
Proof. induction l as [|r l IH]; [done|]. rewrite !fmap_cons. by rewrite IH. Qed.

(** While a prompt is in flight every re-issued call suspends again,
    behind those already waiting. *)
Lemma runMicrotasks_busy jobs a d :
  defer a = Some d →
  runMicrotasks jobs a =
  {| defer := defer a; state := state a; created := created a;
     reactions := reactions a ++ ((λ req, (d, req)) <$> jobs); log := log a |}.
Proof.
  revert a. induction jobs as [|j jobs IH]; intros a Hd; simpl.
  - rewrite app_nil_r. by destruct a.
  - unfold runMicrotasks in *. rewrite IH; unfold show; rewrite Hd; simpl; [|done].
    by rewrite <-app_assoc.
Qed.

Lemma turn_shows i a q q' :
  shows a q → queueTurn i q = Some q' →
  ∃ a', turn i a = Ok a' ∧ shows a' q'.
Proof.
  intros (Hlog & Hdefer & Hcreated & Hreact & Hopen & Hidle) Hq.
  destruct q as [sv cur pd], a as [df st cr rs lg]; simpl in *.
  unfold queueTurn in Hq; simpl in Hq.
  destruct i as [req|res], cur as [c|]; simpl in *; try discriminate;
    injection Hq as <-; subst.
  - (* a call while a prompt is open *)
    eexists. split; [reflexivity|].
    unfold shows, queueLog; simpl. rewrite fmap_app. done.
  - (* a call on an idle alerter *)
    eexists. split; [reflexivity|].
    rewrite (Hidle eq_refl). unfold shows, queueLog; simpl.
    rewrite Nat.add_0_r, app_nil_r. repeat split; try done. lia.
  - (* the user answers the open prompt *)
    unfold onClose; simpl.
    rewrite waiters_of, waiters_of_others, waiters_requests.
    destruct pd as [|w ws]; simpl.
    + eexists. split; [reflexivity|].
      unfold shows, queueLog; simpl.
      rewrite servedLog_app, length_app, app_nil_r, <-app_assoc. simpl.
      repeat split; try done; try lia.
    + eexists. split; [reflexivity|].
      unfold shows, queueLog; simpl.
      change (foldl (λ a req, show req a) ?x ws) with (runMicrotasks ws x).
      rewrite (runMicrotasks_busy _ _ (length sv + 1)) by done. simpl.
      rewrite servedLog_app, length_app, <-!app_assoc. simpl.
      repeat split; try done; try lia.
      all: by rewrite ?Nat.add_0_r.
Qed.

Lemma turns_shows ins a q q' :
  shows a q → queueTurns ins q = Some q' →
  ∃ a', turns ins a = Ok a' ∧ shows a' q'.
Proof.
  revert a q. induction ins as [|i ins IH]; intros a q Hs Hq; simpl in *.
  - injection Hq as <-. by exists a.
  - destruct (queueTurn i q) as [q1|] eqn:E; [|discriminate]. simpl in Hq.
    destruct (turn_shows i a q q1 Hs E) as (a1 & -> & Hs1). simpl.
    by apply (IH a1 q1).
Qed.

Lemma create_shows_idle : shows create idle.
Proof. by repeat split. Qed.

(** The spec's queue neither loses nor reorders: what it holds, oldest
    first, is what was submitted, and the answers went to the oldest. *)
Lemma queueTurn_keeps i q q' :
  (current q = None → pending q = []) →
  queueTurn i q = Some q' →
  (current q' = None → pending q' = []) ∧
  queued q' = queued q ++ requests [i] ∧
  (served q').*2 = (served q).*2 ++ answers [i].
Proof.
  intros Htidy Hq. destruct q as [sv cur pd]; unfold queueTurn, queued in *; simpl in *.
  destruct i as [req|res], cur as [c|]; simpl in *; try discriminate;
    injection Hq as <-; simpl.
  - split; [done|]. rewrite app_nil_r. split; [|done].
    by rewrite <-!app_assoc.
  - rewrite (Htidy eq_refl). split; [done|]. by rewrite !app_nil_r.
  - rewrite !fmap_app, app_nil_r. simpl. split; [|split; [|done]].
    + by destruct pd.
    + rewrite <-app_assoc. simpl. by destruct pd.
Qed.

Lemma queueTurns_keeps ins q q' :
  (current q = None → pending q = []) →
  queueTurns ins q = Some q' →
  queued q' = queued q ++ requests ins ∧
  (served q').*2 = (served q).*2 ++ answers ins.
Proof.
  revert q. induction ins as [|i ins IH]; intros q Htidy Hq; simpl in *.
  - injection Hq as <-. by rewrite !app_nil_r.
  - destruct (queueTurn i q) as [q1|] eqn:E; [|discriminate]. simpl in Hq.
    destruct (queueTurn_keeps i q q1 Htidy E) as (Htidy1 & Hq1 & Hs1).
    destruct (IH q1 Htidy1 Hq) as [-> ->]. rewrite Hq1, Hs1.
    rewrite <-!app_assoc. split.
    + f_equal. unfold requests. by destruct i.
    + f_equal. unfold answers. by destruct i.
Qed.

(** In a log of prompts served one after the other no instant has two
    of them open. *)
Lemma servedLog_one_open d l tl k :
  (∀ j, length (openPrompts (take j tl)) ≤ 1) →
  length (openPrompts (take k (servedLog d l ++ tl))) ≤ 1.
Proof.
  intros Htl. revert d k. induction l as [|[req res] l IH]; intros d k; simpl.
  - apply Htl.
  - destruct k as [|[|k]]; simpl; [lia|lia|].
    unfold openPrompts in *. simpl.
    rewrite filter_cons_False by (intros H; by apply H).
    rewrite filter_nil. apply IH.
Qed.

Lemma queueLog_one_open q k : length (openPrompts (take k (queueLog q))) ≤ 1.
Proof.
  unfold queueLog. apply servedLog_one_open. intros j.
  destruct (current q); destruct j as [|[|j]]; simpl; lia.
Qed.

End AlertQueue.

(** *** The alert queue on three calls at once *)

Section AlertExamples.
Import Js AppAlert AlertSamples.

(** Three calls at once, each answer in a turn of its own: A's deferred
    is resolved before B opens, B's before C opens. *)
Example three_at_once :
  ∃ a, turns threeAtOnce create = Ok a ∧
       log a = [ PromptOpened 0 A; PromptResolved 0 true;
                 PromptOpened 1 B; PromptResolved 1 false;
                 PromptOpened 2 C; PromptResolved 2 true ].
Proof. eexists. split; reflexivity. Qed.

(** An answer with no prompt open has no deferred to resolve. *)
Example stray_answer_raises : turns [Dismiss true] create = Throw TypeError.
Proof. reflexivity. Qed.

End AlertExamples.

(** ** The alerter step by step *)

Section AlertSchedule.
Import Js AlertLoop.

Lemma openPrompts_snoc l e : openPrompts (l ++ [e]) = observe (openPrompts l) e.
Proof. unfold openPrompts. by rewrite foldl_app. Qed.

Lemma opened_snoc l e :
  opened (l ++ [e]) =
  opened l ++ match e with Opened _ req => [req] | _ => [] end.
Proof. unfold opened. rewrite omap_app. by destruct e. Qed.

Lemma called_snoc l e :
  called (l ++ [e]) =
  called l ++ match e with Called _ req => [req] | _ => [] end.
Proof. unfold called. rewrite omap_app. by destruct e. Qed.

Lemma oneAtATime_snoc l e :
  oneAtATime l → length (observe (openPrompts l) e) ≤ 1 → oneAtATime (l ++ [e]).
Proof.
  intros Hl He k. destruct (decide (k ≤ length l)) as [Hk|Hk].
  - rewrite take_app_le by done. apply Hl.
  - rewrite take_ge by (rewrite length_app; simpl; lia).
    by rewrite openPrompts_snoc.
Qed.

Lemma displayedIntent_snoc reqs req :
  displayedIntent (reqs ++ [req]) =
  AppAlert.mergeIntent (AppAlert.intent req) (displayedIntent reqs).
Proof. unfold displayedIntent. by rewrite foldl_app. Qed.

Lemma displayedMessage_snoc reqs req :
  displayedMessage (reqs ++ [req]) = AppAlert.message req.
Proof. unfold displayedMessage. by rewrite last_snoc. Qed.

Lemma omap_head {A B} (f : A → option B) (x : A) (l : list A) :
  omap f (x :: l) = match f x with Some y => y :: omap f l | None => omap f l end.
Proof. done. Qed.

(** The reactions that [fulfil] moves and those it leaves. *)
Lemma resumes_kept (P : PromiseId * Reaction → Prop) `{!∀ x, Decision (P x)}
    (rs : list (PromiseId * Reaction)) :
  (∀ p req o, (p, Resume req o) ∈ rs → P (p, Resume req o)) →
  omap requestOfReaction (filter P rs) = omap requestOfReaction rs.
Proof.
  induction rs as [|[p r] rs IH]; intros Hrs; [done|].
  assert (omap requestOfReaction (filter P rs) = omap requestOfReaction rs) as IH'.
  { apply IH. intros q req o Hin. apply Hrs. by right. }
  destruct (decide (P (p, r))) as [HP|HP].
  - rewrite filter_cons_True by done. by rewrite !omap_head, IH'.
  - rewrite filter_cons_False by done. rewrite omap_head, IH'.
    destruct r as [req o|o]; [|done].
    exfalso. apply HP, Hrs. by left.
Qed.

Lemma resumes_gone (P : PromiseId * Reaction → Prop) `{!∀ x, Decision (P x)}
    (rs : list (PromiseId * Reaction)) :
  (∀ p req o, (p, Resume req o) ∈ rs → ¬ P (p, Resume req o)) →
  omap requestOfReaction (filter P rs) = [].
Proof.
  induction rs as [|[p r] rs IH]; intros Hrs; [done|].
  assert (omap requestOfReaction (filter P rs) = []) as IH'.
  { apply IH. intros q req o Hin. apply Hrs. by right. }
  destruct (decide (P (p, r))) as [HP|HP].
  - rewrite filter_cons_True by done. rewrite omap_head, IH'.
    destruct r as [req o|o]; [|done].
    exfalso. apply (Hrs p req o); [by left|done].
  - by rewrite filter_cons_False.
Qed.

Lemma jobs_of_reactions v (rs : list (PromiseId * Reaction)) :
  omap requestOfJob (jobOf v <$> rs.*2) = omap requestOfReaction rs.
Proof.
  induction rs as [|[p [req o|o]] rs IH]; [done| |];
    rewrite !fmap_cons, !omap_head, IH; done.
Qed.


Lemma no_resumes (rs : list (PromiseId * Reaction)) :
  (∀ p req o, (p, Resume req o) ∉ rs) → omap requestOfReaction rs = [].
Proof.
  induction rs as [|[p r] rs IH]; intros Hrs; [done|].
  rewrite omap_head, IH by (intros q req o Hin; apply (Hrs q req o); by right).
  destruct r as [req o|o]; [|done].
  exfalso. apply (Hrs p req o). by left.
Qed.

Lemma tidy_closed s : tidy s → defer s = None → suspended s = [].
Proof.
  intros Ht Hd. apply no_resumes. intros p req o Hin.
  destruct (Ht p req o Hin) as (d & Hd' & _). congruence.
Qed.

(** *** What each operation does to the invariant *)

Lemma record_call_sound o req s : sound s → sound (record (Called o req) s).
Proof.
  intros (Ho & H1 & Ht & Hop & Hm & Hi).
  destruct s as [df st fr fu rs mt lg]; unfold sound, tidy in *; simpl in *.
  rewrite openPrompts_snoc, opened_snoc, app_nil_r. simpl.
  split_and!; try done. apply oneAtATime_snoc; [done|].
  simpl. rewrite Ho. destruct df; simpl; lia.
Qed.

Lemma enqueue_sound j s : sound s → sound (enqueue j s).
Proof. by destruct s. Qed.

Lemma dequeue_sound df st fr fu rs mt mt' lg :
  sound (mkLoop df st fr fu rs mt lg) → sound (mkLoop df st fr fu rs mt' lg).
Proof. done. Qed.

Lemma register_follow_sound p o s : sound s → sound (register p (Follow o) s).
Proof.
  intros (Ho & H1 & Ht & Hop & Hm & Hi).
  destruct s as [df st fr fu rs mt lg]; unfold sound, tidy in *; simpl in *.
  split_and!; try done. intros q req o' [Hin|Hin]%elem_of_app; [by eapply Ht|].
  by apply list_elem_of_singleton in Hin.
Qed.

Lemma show_sound req s : sound s → sound (show req s).1.
Proof.
  intros (Ho & H1 & Ht & Hop & Hm & Hi).
  destruct s as [df st fr fu rs mt lg]; unfold sound, tidy, show in *; simpl in *.
  destruct df as [d|]; simpl in *.
  - split_and!; try done. intros q req' o' [Hin|Hin]%elem_of_app; [by eapply Ht|].
    apply list_elem_of_singleton in Hin. injection Hin as -> _ _. by exists d.
  - rewrite openPrompts_snoc, opened_snoc, Ho, displayedMessage_snoc,
      displayedIntent_snoc, Hi. simpl.
    split_and!; try done.
    + apply oneAtATime_snoc; [done|]. rewrite Ho. simpl. lia.
    + intros q req' o' Hin. destruct (Ht q req' o' Hin) as (d & Hd & _). discriminate.
Qed.

Lemma fulfil_show_sound o v s : sound s → sound (fulfil (ShowPromise o) v s).
Proof.
  intros (Ho & H1 & Ht & Hop & Hm & Hi).
  destruct s as [df st fr fu rs mt lg]; unfold sound, tidy in *; simpl in *.
  rewrite openPrompts_snoc, opened_snoc, app_nil_r. simpl.
  split_and!; try done.
  - apply oneAtATime_snoc; [done|]. rewrite Ho. destruct df; simpl; lia.
  - intros q req o' [_ Hin]%list_elem_of_filter. by eapply Ht.
Qed.

Lemma onClose_sound res s s' : sound s → onClose res s = Ok s' → sound s'.
Proof.
  intros (Ho & H1 & Ht & Hop & Hm & Hi) Hrun.
  destruct s as [df st fr fu rs mt lg]; unfold sound, tidy, onClose in *; simpl in *.
  destruct df as [d|]; [|discriminate]. injection Hrun as <-. simpl in *.
  rewrite openPrompts_snoc, opened_snoc, app_nil_r, Ho. simpl.
  rewrite filter_cons_False, filter_nil by (intros H; by apply H).
  split_and!; try done.
  - apply oneAtATime_snoc; [done|]. rewrite Ho. simpl.
    rewrite filter_cons_False, filter_nil by (intros H; by apply H). simpl. lia.
  - intros q req o' [Hne Hin]%list_elem_of_filter.
    destruct (Ht q req o' Hin) as (d' & [= <-] & ->). by destruct Hne.
Qed.

Lemma runJob_sound j s : sound s → sound (runJob j s).
Proof.
  intros Hs. destruct j as [req o|o p|o v]; simpl.
  - pose proof (show_sound req s Hs) as Hs'.
    destruct (show req s) as [s1 o1]. by apply enqueue_sound.
  - destruct (valueOf p s); [by apply enqueue_sound|by apply register_follow_sound].
  - by apply fulfil_show_sound.
Qed.

Lemma tick_sound s : sound s → sound (tick s).
Proof.
  intros Hs. unfold tick. destruct s as [df st fr fu rs [|j jobs] lg]; [done|].
  simpl. apply runJob_sound. by eapply dequeue_sound.
Qed.

Lemma step_sound st s s' : sound s → step st s = Ok s' → sound s'.
Proof.
  intros Hs Hrun. destruct st as [req|res|]; simpl in Hrun.
  - injection Hrun as <-. by apply show_sound, record_call_sound.
  - by eapply onClose_sound.
  - injection Hrun as <-. by apply tick_sound.
Qed.

Lemma run_sound steps s s' : sound s → run steps s = Ok s' → sound s'.
Proof.
  revert s. induction steps as [|st steps IH]; intros s Hs Hrun; simpl in Hrun.
  - by injection Hrun as <-.
  - destruct (step st s) as [s1|e] eqn:E; [|discriminate]. simpl in Hrun.
    apply (IH s1); [by eapply step_sound|done].
Qed.

Lemma create_sound : sound create.
Proof.
  unfold sound, tidy; simpl. split_and!; try done.
  - intros k. rewrite take_nil. simpl. lia.
  - intros p req o Hin. by apply elem_of_nil in Hin.
Qed.


(** *** Where each operation leaves the requests *)

Lemma show_moves req s :
  tidy s →
  called (log (show req s).1) = called (log s) ∧
  opened (log (show req s).1) ++ suspended (show req s).1 =
    opened (log s) ++ suspended s ++ [req] ∧
  resuming (show req s).1 = resuming s.
Proof.
  intros Ht. pose proof (tidy_closed s Ht) as Hnone.
  destruct s as [df st fr fu rs mt lg]; unfold show, suspended, resuming in *; simpl in *.
  destruct df as [d|]; simpl.
  - by rewrite omap_app.
  - rewrite called_snoc, opened_snoc, omap_app, !app_nil_r.
    rewrite (Hnone eq_refl). by rewrite app_nil_r.
Qed.

Lemma call_moves req s :
  tidy s →
  called (log (call req s)) = called (log s) ++ [req] ∧
  opened (log (call req s)) ++ suspended (call req s) =
    opened (log s) ++ suspended s ++ [req] ∧
  resuming (call req s) = resuming s.
Proof.
  intros Ht. unfold call.
  assert (tidy (record (Called (fresh s) req) s)) as Ht' by by destruct s.
  destruct (show_moves req _ Ht') as (-> & -> & ->).
  destruct s as [df st fr fu rs mt lg]; unfold suspended, resuming; simpl.
  by rewrite called_snoc, opened_snoc, app_nil_r.
Qed.

Lemma onClose_moves res s s' :
  tidy s → onClose res s = Ok s' →
  called (log s') = called (log s) ∧
  opened (log s') = opened (log s) ∧
  suspended s' = [] ∧
  resuming s' = resuming s ++ suspended s.
Proof.
  intros Ht Hrun.
  destruct s as [df st fr fu rs mt lg]; unfold onClose, tidy, suspended, resuming in *;
    simpl in *.
  destruct df as [d|]; [|discriminate]. injection Hrun as <-. simpl.
  rewrite called_snoc, opened_snoc, !app_nil_r, omap_app, jobs_of_reactions.
  split_and!; try done.
  - apply resumes_gone. intros p req o Hin Hne.
    destruct (Ht p req o Hin) as (d' & [= <-] & ->). by apply Hne.
  - f_equal. apply resumes_kept. intros p req o Hin.
    by destruct (Ht p req o Hin) as (d' & [= <-] & ->).
Qed.

Lemma fulfil_show_moves o v s :
  tidy s →
  called (log (fulfil (ShowPromise o) v s)) = called (log s) ∧
  opened (log (fulfil (ShowPromise o) v s)) = opened (log s) ∧
  suspended (fulfil (ShowPromise o) v s) = suspended s ∧
  resuming (fulfil (ShowPromise o) v s) = resuming s.
Proof.
  intros Ht.
  destruct s as [df st fr fu rs mt lg]; unfold tidy, suspended, resuming in *; simpl in *.
  rewrite called_snoc, opened_snoc, !app_nil_r, omap_app, jobs_of_reactions.
  split_and!; try done.
  - apply resumes_kept. intros p req o' Hin.
    by destruct (Ht p req o' Hin) as (d' & _ & ->).
  - rewrite resumes_gone; [by rewrite app_nil_r|]. intros p req o' Hin.
    by destruct (Ht p req o' Hin) as (d' & _ & ->).
Qed.

Lemma tick_moves s :
  tidy s →
  called (log (tick s)) = called (log s) ∧
  ((opened (log (tick s)) ++ suspended (tick s) = opened (log s) ++ suspended s ∧
    resuming (tick s) = resuming s) ∨
   (∃ req, resuming s = req :: resuming (tick s) ∧
           opened (log (tick s)) ++ suspended (tick s) =
             opened (log s) ++ suspended s ++ [req])).
Proof.
  intros Ht. unfold tick.
  destruct s as [df st fr fu rs [|j jobs] lg]; [by split; [|left]|].
  cbn [microtasks defer state fresh fulfilled reactions log].
  set (s0 := mkLoop df st fr fu rs jobs lg).
  assert (tidy s0) as Ht0 by done.
  destruct j as [req o|o p|o v]; unfold runJob.
  - destruct (show_moves req s0 Ht0) as (Hc & Hf & Hr).
    destruct (show req s0) as [s1 o1]; simpl in *.
    assert (resuming (enqueue (RunAdopt o (ShowPromise o1)) s1) = resuming s1) as Hq.
    { unfold resuming, enqueue; simpl. by rewrite omap_app, app_nil_r. }
    split; [done|]. right. exists req. rewrite Hq, Hr. split; [done|].
    exact Hf.
  - split.
    + by destruct (valueOf p s0).
    + left. destruct (valueOf p s0); unfold suspended, resuming, enqueue, register; simpl;
        by rewrite omap_app, app_nil_r.
  - destruct (fulfil_show_moves o v s0 Ht0) as (-> & -> & -> & ->).
    split; [done|]. by left.
Qed.

(** No step loses a request. *)
Lemma step_keeps st s s' :
  tidy s → step st s = Ok s' →
  called (log s) ≡ₚ opened (log s) ++ waiting s →
  called (log s') ≡ₚ opened (log s') ++ waiting s'.
Proof.
  intros Ht Hrun Hk. unfold waiting in *. destruct st as [req|res|]; simpl in Hrun.
  - injection Hrun as <-. destruct (call_moves req s Ht) as (-> & Hf & ->).
    rewrite (assoc_L (++) (opened _)), Hf, Hk.
    rewrite <-!(assoc_L (++)). do 2 f_equiv. apply Permutation_app_comm.
  - destruct (onClose_moves res s s' Ht Hrun) as (-> & -> & -> & ->).
    rewrite Hk. simpl. f_equiv. apply Permutation_app_comm.
  - injection Hrun as <-. destruct (tick_moves s Ht) as (-> & [[Hf ->]|(req & Hr & Hf)]).
    + by rewrite (assoc_L (++) (opened _)), Hf, <-(assoc_L (++)).
    + rewrite (assoc_L (++) (opened _)), Hf, Hk, Hr.
      by rewrite <-!(assoc_L (++)).
Qed.

(** A step that no call or answer disturbs keeps the requests in the
    order they were made in. *)
Lemma step_in_order st s s' :
  tidy s → step st s = Ok s' → undisturbed st s = true →
  called (log s) = opened (log s) ++ waiting s →
  called (log s') = opened (log s') ++ waiting s'.
Proof.
  intros Ht Hrun Hu Hk. unfold waiting in *. destruct st as [req|res|]; simpl in Hrun.
  - injection Hrun as <-. destruct (call_moves req s Ht) as (-> & Hf & ->).
    unfold undisturbed in Hu. destruct (resuming s); [|discriminate].
    rewrite app_nil_r in *. by rewrite Hf, Hk, <-!(assoc_L (++)).
  - destruct (onClose_moves res s s' Ht Hrun) as (-> & -> & -> & ->).
    unfold undisturbed in Hu. destruct (resuming s); [|discriminate].
    by rewrite app_nil_r in Hk.
  - injection Hrun as <-. destruct (tick_moves s Ht) as (-> & [[Hf ->]|(req & Hr & Hf)]).
    + by rewrite (assoc_L (++) (opened _)), Hf, <-(assoc_L (++)).
    + rewrite (assoc_L (++) (opened _)), Hf, Hk, Hr.
      by rewrite <-!(assoc_L (++)).
Qed.

Lemma run_keeps steps s s' :
  sound s → run steps s = Ok s' →
  called (log s) ≡ₚ opened (log s) ++ waiting s →
  called (log s') ≡ₚ opened (log s') ++ waiting s'.
Proof.
  revert s. induction steps as [|st steps IH]; intros s Hs Hrun Hk; simpl in Hrun.
  - by injection Hrun as <-.
  - destruct (step st s) as [s1|e] eqn:E; [|discriminate]. simpl in Hrun.
    apply (IH s1); [by eapply step_sound|done|].
    eapply step_keeps; [|done..]. apply Hs.
Qed.

Lemma run_in_order steps s s' :
  sound s → run steps s = Ok s' → quiet steps s = true →
  called (log s) = opened (log s) ++ waiting s →
  called (log s') = opened (log s') ++ waiting s'.
Proof.
  revert s. induction steps as [|st steps IH]; intros s Hs Hrun Hq Hk; simpl in Hrun, Hq.
  - by injection Hrun as <-.
  - destruct (step st s) as [s1|e] eqn:E; [|discriminate]. simpl in Hrun.
    apply andb_true_iff in Hq as [Hu Hq].
    apply (IH s1); [by eapply step_sound|done..|].
    eapply step_in_order; [|done..]. apply Hs.
Qed.

(** C2 (amended): however [show] calls, answers and microtasks
    interleave, as long as each answer finds a prompt open: no instant
    has more than one prompt open, so a prompt's deferred is resolved
    before the next prompt opens; the deferred in [this.defer] is that
    of the one open prompt; and no request is lost, each call made being
    answered, on display or still waiting. If moreover no call and no
    answer arrives while a call that has waited is about to be
    re-issued, the prompts are opened in the order the calls were made
    in and those still waiting will follow in that order. *)
Theorem prompts_one_at_a_time (steps : list Step) (s : Loop) :
  run steps create = Ok s →
  oneAtATime (log s) ∧
  openPrompts (log s) = option_list (defer s) ∧
  if quiet steps create
  then called (log s) = opened (log s) ++ waiting s
  else called (log s) ≡ₚ opened (log s) ++ waiting s.
Proof.
  intros Hrun.
  destruct (run_sound steps create s create_sound Hrun) as (Ho & H1 & _).
  split; [done|]. split; [done|].
  destruct (quiet steps create) eqn:Hq.
  - by apply (run_in_order steps create s create_sound Hrun Hq).
  - by apply (run_keeps steps create s create_sound Hrun).
Qed.

(** X12: what the alert component is given to display, however calls,
    answers and microtasks interleave: the message of the prompt opened
    last, also once that prompt is closed, and for the intent the value
    of the last prompt whose options had the key at all, be it
    [undefined]; a prompt whose options leave the intent out is shown
    with the one an earlier prompt left behind. The dialog is open
    exactly while a deferred is in [this.defer]. *)
Theorem prompt_shows_latest_request (steps : list Step) (s : Loop) :
  run steps create = Ok s →
  AppAlert.stMessage (state s) = displayedMessage (opened (log s)) ∧
  AppAlert.stIntent (state s) = displayedIntent (opened (log s)) ∧
  AppAlert.isOpen (state s) = bool_decide (is_Some (defer s)).
Proof.
  intros Hrun.
  by destruct (run_sound steps create s create_sound Hrun) as (_ & _ & _ & Hop & Hm & Hi).
Qed.

End AlertSchedule.

(** *** The alerter on three calls in one turn, and on a late call *)

Section AlertScheduleExamples.
Import Js AlertLoop AlertSamples.

Lemma prompts_one_at_a_time_witness :
  run threeInOneTurn create = Ok afterThree ∧
  oneAtATime (log afterThree) ∧
  openPrompts (log afterThree) = option_list (defer afterThree) ∧
  called (log afterThree) = opened (log afterThree) ++ waiting afterThree.
Proof.
  split; [vm_compute; reflexivity|].
  apply (prompts_one_at_a_time threeInOneTurn afterThree). vm_compute. reflexivity.
Defined.

(** C2, the claim as stated fails twice. Called in one turn, A, B and C
    are served in that order, but the promise A's caller holds is
    fulfilled only after B's prompt has opened: what is resolved before is
    A's deferred. And a call that arrives after [onClose] has emptied
    [this.defer], before the calls that waited are re-issued, is served
    ahead of them: C, called after B, is on display while B waits
    again. *)
Lemma later_call_is_served_first :
  (run threeInOneTurn create = Ok afterThree ∧
   log afterThree !! 0 = Some (Called 0 A) ∧
   opened (log afterThree) = [A; B] ∧
   position (opens A) (log afterThree) = Some 1 ∧
   log afterThree !! 4 = Some (Fulfilled (DeferredPromise 1) true) ∧
   position (opens B) (log afterThree) = Some 5 ∧
   position (settles 0) (log afterThree) = Some 6) ∧
  (run lateCall create = Ok afterLate ∧
   called (log afterLate) = [A; B; C] ∧
   opened (log afterLate) = [A; C] ∧
   waiting afterLate = [B] ∧
   called (log afterLate) ≠ opened (log afterLate) ++ waiting afterLate).
Proof.
  split; split_and!; try (vm_compute; reflexivity).
  vm_compute. intros H. discriminate H.
Qed.

(** The late call, event by event. *)
Example late_call_log :
  log afterLate = [ Called 0 A; Opened 1 A; Called 2 B;
                    Fulfilled (DeferredPromise 1) true;
                    Called 3 C; Opened 4 C;
                    Fulfilled (ShowPromise 0) true ] ∧
  quiet lateCall create = false.
Proof. split; vm_compute; reflexivity. Qed.

(** An answer with no prompt open has no deferred to resolve, at this
    grain as well. *)
Example stray_close_raises :
  run [Call A; Tick; Close true; Close false] create = Throw TypeError.
Proof. vm_compute. reflexivity. Qed.

Lemma prompt_shows_latest_request_witness :
  run fourInTurn create = Ok afterFour ∧
  AppAlert.stMessage (state afterFour) = displayedMessage (opened (log afterFour)) ∧
  AppAlert.stIntent (state afterFour) = displayedIntent (opened (log afterFour)) ∧
  AppAlert.isOpen (state afterFour) = bool_decide (is_Some (defer afterFour)).
Proof.
  split; [vm_compute; reflexivity|].
  apply (prompt_shows_latest_request fourInTurn afterFour). vm_compute. reflexivity.
Defined.

(** A prompt presented without the intent key is displayed with the
    intent of the prompt before it; one presented with
    [intent: undefined] is displayed with none, and so is the prompt
    after it that leaves the key out. *)
Example intent_left_out_or_undefined :
  (∃ s, run (take 5 fourInTurn) create = Ok s ∧
        opened (log s) = [A; B] ∧
        AppAlert.stMessage (state s) = "second" ∧
        AppAlert.stIntent (state s) = Some "danger") ∧
  (∃ s, run (take 9 fourInTurn) create = Ok s ∧
        opened (log s) = [A; B; D] ∧
        AppAlert.stMessage (state s) = "fourth" ∧
        AppAlert.stIntent (state s) = None) ∧
  AppAlert.stMessage (state afterFour) = "second" ∧
  AppAlert.stIntent (state afterFour) = None.
Proof.
  split; [|split; [|by split]].
  - eexists. split; [vm_compute; reflexivity|]. by split_and!.
  - eexists. split; [vm_compute; reflexivity|]. by split_and!.
Qed.

End AlertScheduleExamples.

(** * Further properties of the panel *)

Section TreeOperations.
Import Js LeftPanel.
Variable USERNAME : string.
Variable Icons : string → option string.

Local Abbreviation buildNodes := (LeftPanel.buildNodes USERNAME Icons).
Local Abbreviation rebuiltTree := (LeftPanel.rebuiltTree USERNAME Icons).

Local Arguments findByPath : simpl never.
Local Arguments clear : simpl never.
Local Arguments selectedIn : simpl never.

Lemma toggle_group_twice (x : TreeGroup) :
  set_isExpanded (negb (isExpanded (set_isExpanded (negb (isExpanded x)) x)))
    (set_isExpanded (negb (isExpanded x)) x) = x.
Proof. destruct x as [i c e l cs]. unfold set_isExpanded. simpl. by rewrite negb_involutive. Qed.

Lemma entries_alter_expanded (f : TreeGroup → TreeGroup) g (ns : list TreeGroup) :
  (∀ x, childNodes (f x) = childNodes x) →
  (x ← alter f g ns; childNodes x) = (x ← ns; childNodes x).
Proof.
  intros Hf. revert g. induction ns as [|n ns IH]; intros [|g]; csimpl; try done.
  - by rewrite Hf.
  - by rewrite IH.
Qed.

(** X1: expanding or collapsing a group flips that group's flag and
    nothing else: the entries, their selection and the other groups stay
    as they are, a position without a group changes nothing, and doing
    it twice gives back the panel there was. *)
Theorem toggle_flips_one_flag (g : nat) (p : Panel) :
  onNodeToggle g (onNodeToggle g p) = p ∧
  entries (onNodeToggle g p) = entries p ∧
  isExpanded <$> nodes (onNodeToggle g p) = alter negb g (isExpanded <$> nodes p) ∧
  groupId <$> nodes (onNodeToggle g p) = groupId <$> nodes p ∧
  showDistributions (onNodeToggle g p) = showDistributions p.
Proof.
  destruct p as [ns sd]. unfold onNodeToggle, set_nodes, entries. simpl.
  repeat split.
  - f_equal. rewrite list_alter_alter_eq. apply list_alter_id.
    intros x. apply toggle_group_twice.
  - by apply entries_alter_expanded.
  - apply list_fmap_alter. by apply Forall_true.
  - apply list_eq. intros i. rewrite !list_lookup_fmap.
    destruct (decide (g = i)) as [->|Hne].
    + rewrite list_lookup_alter_eq. by destruct (ns !! i).
    + by rewrite list_lookup_alter_ne.
Qed.

Lemma rebuiltGroup_twice pr favorites (g : TreeGroup) :
  rebuiltGroup USERNAME Icons pr favorites (rebuiltGroup USERNAME Icons pr favorites g) =
  rebuiltGroup USERNAME Icons pr favorites g.
Proof.
  unfold rebuiltGroup. simpl. destruct (groupId g) as [|[|k]]; simpl; try done.
  by destruct (distributions favorites).
Qed.

(** X2: a rebuild is idempotent and leaves the groups themselves alone:
    run on a panel of the shape the component keeps it returns normally,
    running it again on its result with the same store and language
    changes nothing, and every group keeps its position, its identity
    and its expanded or collapsed state. *)
Theorem rebuild_is_idempotent (pr : Props) (favorites : FavoritesState) (p : Panel) :
  wf p →
  ∃ p', buildNodes pr favorites p = Ok p' ∧
        buildNodes pr favorites p' = Ok p' ∧
        groupId <$> nodes p' = groupId <$> nodes p ∧
        isExpanded <$> nodes p' = isExpanded <$> nodes p ∧
        showDistributions p' = showDistributions p.
Proof.
  intros Hwf. exists (rebuiltTree pr favorites p).
  split; [by apply buildNodes_rebuilds|].
  split.
  - rewrite buildNodes_rebuilds by (by apply wf_rebuiltTree). f_equal.
    unfold LeftPanel.rebuiltTree, set_nodes. simpl. f_equal.
    rewrite <-list_fmap_compose. apply list_fmap_ext. intros _ g _. simpl.
    apply rebuiltGroup_twice.
  - unfold LeftPanel.rebuiltTree. simpl. rewrite <-!list_fmap_compose.
    repeat split; apply list_fmap_ext; intros _ g _; simpl;
      unfold rebuiltGroup; by destruct (groupId g) as [|[|k]].
Qed.

Lemma rebuiltTree_toggle pr favorites g p :
  rebuiltTree pr favorites (onNodeToggle g p) = onNodeToggle g (rebuiltTree pr favorites p).
Proof.
  unfold LeftPanel.rebuiltTree, onNodeToggle, set_nodes. simpl. f_equal.
  apply list_fmap_alter. apply Forall_true. intros x.
  unfold rebuiltGroup, set_isExpanded. simpl. by destruct (groupId x) as [|[|k]].
Qed.

Lemma setActiveNode_toggle dir g p :
  wf p →
  ∃ p2, setActiveNode dir p = Ok p2 ∧
        setActiveNode dir (onNodeToggle g p) = Ok (onNodeToggle g p2).
Proof.
  intros Hwf.
  destruct (wf_shape p Hwf) as [[Hsd (g0 & g1 & Hn)]|[Hsd (g0 & g1 & g2 & Hn)]];
    destruct p as [ns sd]; simpl in *; subst;
    unfold setActiveNode, getNodeFromPath, onNodeToggle; simpl.
  - destruct g as [|[|g]]; simpl;
      (destruct (findByPath dir (clear (childNodes g0))) as [[i0 n0]|];
       [|destruct (findByPath dir (clear (childNodes g1))) as [[i1 n1]|]]);
      simpl; eexists; split; reflexivity.
  - destruct g as [|[|[|g]]]; simpl;
      (destruct (findByPath dir (clear (childNodes g0))) as [[i0 n0]|];
       [|destruct (findByPath dir (clear (childNodes g1))) as [[i1 n1]|];
         [|destruct (findByPath dir (clear (childNodes g2))) as [[i2 n2]|]]]);
      simpl; eexists; split; reflexivity.
Qed.

(** X3: expanding or collapsing a group commutes with a rebuild and with
    a render pass: a group collapsed before the store or the language
    changes is collapsed afterwards, and toggling a group neither moves
    nor drops the selection. *)
Theorem toggle_commutes_with_rebuild_and_render (pr : Props)
    (favorites : FavoritesState) (dir : string) (g : nat) (p : Panel) :
  wf p →
  ∃ p1 p2,
    buildNodes pr favorites p = Ok p1 ∧
    buildNodes pr favorites (onNodeToggle g p) = Ok (onNodeToggle g p1) ∧
    setActiveNode dir p = Ok p2 ∧
    setActiveNode dir (onNodeToggle g p) = Ok (onNodeToggle g p2).
Proof.
  intros Hwf.
  destruct (setActiveNode_toggle dir g p Hwf) as (p2 & Hsel & Hsel').
  exists (rebuiltTree pr favorites p), p2.
  split; [by apply buildNodes_rebuilds|].
  split; [|done].
  rewrite buildNodes_rebuilds by (by apply wf_onNodeToggle).
  by rewrite rebuiltTree_toggle.
Qed.

Lemma selectedNodes_entries p : selectedNodes p = selectedIn (entries p).
Proof.
  unfold selectedNodes, entries, selectedIn. destruct p as [ns sd]. simpl.
  induction ns as [|n ns IH]; csimpl; [done|].
  by rewrite filter_app, IH.
Qed.

Ltac use_finds' :=
  repeat match goal with
  | H : findByPath _ _ = _ |- _ => rewrite H
  end.

Ltac selects_facts :=
  first
  [ by unfold wf in *
  | unfold forgetSelection, set_nodes; simpl; rewrite ?blank_alter, ?blank_clear;
    reflexivity
  | unfold entries; simpl; rewrite ?app_nil_r, ?selectFirst_app; use_finds';
    unfold selectFirst; use_finds'; unfold clear; rewrite ?fmap_app; reflexivity ].

(** The selection pass, entry by entry. *)
Lemma setActiveNode_selects dir p :
  wf p →
  ∃ p', setActiveNode dir p = Ok p' ∧ wf p' ∧
        forgetSelection p' = forgetSelection p ∧
        entries p' = selectFirst dir (entries p).
Proof.
  intros Hwf.
  destruct (wf_shape p Hwf) as [[Hsd (g0 & g1 & Hn)]|[Hsd (g0 & g1 & g2 & Hn)]];
    destruct p as [ns sd]; simpl in *; subst;
    unfold setActiveNode, getNodeFromPath; simpl;
    rewrite !findByPath_clear.
  - destruct (findByPath dir (childNodes g0)) as [[i0 n0]|] eqn:E0;
      [|destruct (findByPath dir (childNodes g1)) as [[i1 n1]|] eqn:E1];
      simpl; (eexists; split; [reflexivity|]); repeat split; selects_facts.
  - destruct (findByPath dir (childNodes g0)) as [[i0 n0]|] eqn:E0;
      [|destruct (findByPath dir (childNodes g1)) as [[i1 n1]|] eqn:E1;
        [|destruct (findByPath dir (childNodes g2)) as [[i2 n2]|] eqn:E2]];
      simpl; (eexists; split; [reflexivity|]); repeat split; selects_facts.
Qed.

(** X4: looking a path up in a panel of the shape the component keeps
    never raises; a reference it returns points at an entry that is in
    the tree at that place, has the path asked for and is the first such
    entry in display order; it returns nothing only when no entry of the
    tree has that path. *)
Theorem getNodeFromPath_finds (dir : string) (p : Panel) :
  wf p →
  ∃ found, getNodeFromPath dir p = Ok found ∧
    match found with
    | Some r =>
        (nodes p !! groupIx r) ≫= (λ g, childNodes g !! entryIx r) = Some (target r) ∧
        nodeData (target r) = dir ∧
        firstMatch dir p = Some (target r)
    | None => Forall (λ n, nodeData n ≠ dir) (entries p)
    end.
Proof.
  intros Hwf.
  destruct (wf_shape p Hwf) as [[Hsd (g0 & g1 & Hn)]|[Hsd (g0 & g1 & g2 & Hn)]];
    destruct p as [ns sd]; simpl in *; subst;
    unfold getNodeFromPath, firstMatch, entries; simpl; rewrite ?app_nil_r.
  - rewrite findByPath_app.
    destruct (findByPath dir (childNodes g0)) as [[i0 n0]|] eqn:E0;
      [|destruct (findByPath dir (childNodes g1)) as [[i1 n1]|] eqn:E1];
      simpl; (eexists; split; [reflexivity|]); simpl.
    + apply findByPath_lookup in E0 as [? ?]. done.
    + apply findByPath_lookup in E1 as [? ?]. done.
    + apply list_find_None in E0, E1. by apply Forall_app.
  - rewrite !findByPath_app.
    destruct (findByPath dir (childNodes g0)) as [[i0 n0]|] eqn:E0;
      [|destruct (findByPath dir (childNodes g1)) as [[i1 n1]|] eqn:E1;
        [|destruct (findByPath dir (childNodes g2)) as [[i2 n2]|] eqn:E2]];
      simpl; (eexists; split; [reflexivity|]); simpl.
    + apply findByPath_lookup in E0 as [? ?]. done.
    + apply findByPath_lookup in E1 as [? ?]. done.
    + apply findByPath_lookup in E2 as [? ?]. done.
    + apply list_find_None in E0, E1, E2. rewrite !Forall_app. done.
Qed.

(** X5: a render pass with no active cache looks for the empty path; in
    a panel none of whose entries has an empty path it returns normally,
    leaves every entry unselected and hands the tree component the
    nodes of the state, with the [hidden] class following [hide]. *)
Theorem render_without_active_cache (pr : Props) (p : Panel) :
  wf p →
  Forall (λ n, nodeData n ≠ "") (entries p) →
  ∃ p', Lifetime.render pr None p =
          Ok (p', {| Lifetime.contents := nodes p'; Lifetime.hidden := hide pr |}) ∧
        entries p' = clear (entries p) ∧
        selectedNodes p' = [] ∧
        forgetSelection p' = forgetSelection p.
Proof.
  intros Hwf Hnone.
  destruct (setActiveNode_selects "" p Hwf) as (p' & Hrun & Hwf' & Hforget & Hentries).
  exists p'. unfold Lifetime.render. simpl. rewrite Hrun. simpl.
  assert (Hfind : findByPath "" (entries p) = None) by (by apply list_find_None).
  assert (Hclear : entries p' = clear (entries p)).
  { rewrite Hentries. unfold selectFirst. by rewrite Hfind. }
  repeat split; try done.
  rewrite selectedNodes_entries, Hclear. apply selectedIn_clear.
Qed.

Lemma clear_blank (cs : list TreeNode) : clear (blank <$> cs) = clear cs.
Proof. unfold clear. rewrite <-list_fmap_compose. by apply list_fmap_ext. Qed.

Lemma clearSelection_forget p q :
  forgetSelection p = forgetSelection q →
  clearSelection (nodes p) = clearSelection (nodes q) ∧
  showDistributions p = showDistributions q.
Proof.
  intros H. split; [|exact (f_equal showDistributions H)].
  apply (f_equal (λ x, clearSelection (nodes x))) in H.
  unfold forgetSelection, clearSelection in H. simpl in H.
  rewrite <-!list_fmap_compose in H.
  etrans; [|etrans; [exact H|]]; unfold clearSelection;
    apply list_fmap_ext; intros _ g _; simpl; unfold set_childNodes; simpl;
    by rewrite clear_blank.
Qed.

(** X6: a render pass starts from scratch: whatever an earlier pass
    selected, rendering for a path gives the panel that rendering for
    that path alone gives, so the selection always follows the last
    active path and nothing is left over from the one before. *)
Theorem last_render_decides_selection (dir1 dir2 : string) (p : Panel) :
  wf p →
  ∃ p1 p2, setActiveNode dir1 p = Ok p1 ∧
           setActiveNode dir2 p1 = Ok p2 ∧
           setActiveNode dir2 p = Ok p2.
Proof.
  intros Hwf.
  destruct (setActiveNode_selects dir1 p Hwf) as (p1 & Hrun1 & Hwf1 & Hforget1 & _).
  destruct (setActiveNode_selects dir2 p Hwf) as (p2 & Hrun2 & _).
  exists p1, p2. split; [done|]. split; [|done].
  destruct (clearSelection_forget p1 p Hforget1) as [Hclear Hsd].
  rewrite <-Hrun2. unfold setActiveNode.
  replace (set_nodes (clearSelection (nodes p1)) p1)
    with (set_nodes (clearSelection (nodes p)) p); [done|].
  unfold set_nodes. by rewrite Hclear, Hsd.
Qed.

Lemma dispatch_keeps_registry ev i i' :
  Lifetime.dispatch USERNAME Icons ev i = Ok i' →
  Lifetime.disposers i' = Lifetime.disposers i ∧
  Lifetime.registered i' = Lifetime.registered i.
Proof.
  unfold Lifetime.dispatch.
  destruct (Lifetime.handlerOf ev) as [h|]; [case_bool_decide|];
    try (destruct (step USERNAME Icons ev (Lifetime.world i)); simpl);
    intros Hrun; try discriminate; by injection Hrun as <-.
Qed.

Lemma dispatchAll_keeps_registry evs i i' :
  Lifetime.dispatchAll USERNAME Icons evs i = Ok i' →
  Lifetime.disposers i' = Lifetime.disposers i ∧
  Lifetime.registered i' = Lifetime.registered i.
Proof.
  revert i. induction evs as [|ev evs IH]; intros i; simpl.
  - by intros [= <-].
  - destruct (Lifetime.dispatch USERNAME Icons ev i) as [i1|] eqn:E; simpl; [|done].
    intros H. apply IH in H as [-> ->]. by apply dispatch_keeps_registry in E.
Qed.

Lemma dispatch_unregistered ev i :
  Lifetime.registered i = [] →
  Lifetime.fromOutside ev = true →
  Lifetime.dispatch USERNAME Icons ev i =
    Ok {| Lifetime.world := deliver ev (Lifetime.world i);
          Lifetime.disposers := Lifetime.disposers i;
          Lifetime.registered := [] |}.
Proof.
  intros Hreg Hout. unfold Lifetime.dispatch. rewrite Hreg.
  by destruct ev.
Qed.

Lemma deliver_keeps_panel ev w : panel (deliver ev w) = panel w.
Proof. by destruct ev. Qed.

Lemma dispatchAll_unregistered evs i :
  Lifetime.registered i = [] →
  forallb Lifetime.fromOutside evs = true →
  Lifetime.dispatchAll USERNAME Icons evs i =
    Ok {| Lifetime.world := foldl (λ w ev, deliver ev w) (Lifetime.world i) evs;
          Lifetime.disposers := Lifetime.disposers i;
          Lifetime.registered := [] |}.
Proof.
  revert i. induction evs as [|ev evs IH]; intros i Hreg Hout; simpl in *.
  - destruct i. simpl in *. by subst.
  - apply andb_prop in Hout as [Hev Hout].
    rewrite dispatch_unregistered by done. simpl.
    by rewrite IH.
Qed.

Lemma foldl_deliver_keeps_panel evs w :
  panel (foldl (λ w ev, deliver ev w) w evs) = panel w.
Proof.
  revert w. induction evs as [|ev evs IH]; intros w; simpl; [done|].
  by rewrite IH, deliver_keeps_panel.
Qed.

(** X7: unmounting releases the two reactions and the language listener
    and nothing more. Whatever happened to the panel while it was
    mounted, after [componentWillUnmount] no handler is registered, the
    store and the language may keep changing without any handler running
    or the tree model changing, yet a probe that is still pending lands
    as if the panel were mounted: its continuation appends the extra
    group all the same. *)
Theorem unmount_releases_subscriptions (cy : bool) (pr : Props)
    (favorites : FavoritesState) (before after : list Event) (i : Lifetime.Mounted) :
  Lifetime.dispatchAll USERNAME Icons before (Lifetime.mount cy pr favorites) = Ok i →
  forallb Lifetime.fromOutside after = true →
  Lifetime.registered (Lifetime.componentWillUnmount i) = [] ∧
  (∃ i', Lifetime.dispatchAll USERNAME Icons after (Lifetime.componentWillUnmount i) = Ok i' ∧
         Lifetime.world i' = foldl (λ w ev, deliver ev w) (Lifetime.world i) after ∧
         panel (Lifetime.world i') = panel (Lifetime.world i)) ∧
  (∃ i', Lifetime.dispatch USERNAME Icons (ProbeSettled (Some true))
           (Lifetime.componentWillUnmount i) = Ok i' ∧
         panel (Lifetime.world i') =
           if probePending (Lifetime.world i)
           then checkForWSL (props (Lifetime.world i)) true (panel (Lifetime.world i))
           else panel (Lifetime.world i)).
Proof.
  intros Hbefore Hafter.
  apply dispatchAll_keeps_registry in Hbefore as [Hd Hr]. simpl in Hd, Hr.
  assert (Hreg : Lifetime.registered (Lifetime.componentWillUnmount i) = []).
  { unfold Lifetime.componentWillUnmount. simpl. rewrite Hd, Hr. reflexivity. }
  split; [done|]. split.
  - eexists. split; [by apply dispatchAll_unregistered|].
    simpl. split; [done|]. apply foldl_deliver_keeps_panel.
  - unfold Lifetime.dispatch. simpl.
    destruct (probePending (Lifetime.world i)); simpl; eexists; split; reflexivity.
Qed.

End TreeOperations.

(** * Further properties of the router *)

Section RouterDiscipline.
Import Js Router RouterCalls.

(** X8: whatever the host, the click and the fate of the navigation, one
    activation makes at most one navigation call, and that one for the
    clicked node's path; it switches panes exactly once when the
    modifier is down and not at all otherwise; it shows at most one
    prompt, and only after a navigation call; and a failure is either
    shown or left unhandled, never both and never twice. *)
Theorem activation_call_discipline (isMac : bool) (nav : Navigator) (dir : string)
    (e : MouseEvent) (a : AppState) :
  length (filter isNavigation (trace (onNodeClick isMac nav dir e a))) ≤ 1 ∧
  Forall (λ c, destination c = Some dir)
    (filter isNavigation (trace (onNodeClick isMac nav dir e a))) ∧
  length (filter isPaneSwitch (trace (onNodeClick isMac nav dir e a))) =
    (if modifier isMac e then 1 else 0) ∧
  length (filter isAlert (trace (onNodeClick isMac nav dir e a))) ≤
    length (filter isNavigation (trace (onNodeClick isMac nav dir e a))) ∧
  length (filter isAlert (trace (onNodeClick isMac nav dir e a))) +
    length (unhandled (onNodeClick isMac nav dir e a)) ≤ 1.
Proof.
  unfold onNodeClick, openFavorite, modifier.
  destruct (if isMac then altKey e else ctrlKey e); simpl.
  - destruct (splitView a); simpl; case_decide; simpl;
      unfold navigate; try destruct (nav _ dir) as [[|?]|?]; simpl;
      repeat split; try lia; repeat constructor.
  - destruct (getActiveCache a) as [c|]; simpl; [case_decide|]; simpl;
      unfold navigate; try destruct (nav _ dir) as [[|?]|?]; simpl;
      repeat split; try lia; repeat constructor.
Qed.

End RouterDiscipline.

Section RouterExamples.
Import Js Router RouterSamples.

Lemma alerts_need_a_raise_witness :
  (∀ v d, ∃ s, refusing v d = Returns s) ∧
  filter isAlert (trace (onNodeClick false refusing "/root" plainClick single)) = [].
Proof.
  split.
  - intros v d. exists (Rejects denied). reflexivity.
  - apply (alerts_need_a_raise false refusing "/root" plainClick single).
    intros v d. exists (Rejects denied). reflexivity.
Defined.

Lemma raise_is_reported_witness :
  thrown (openFavorite (λ _ _, Raises denied) "/root"
            (negb (if false then altKey plainClick else ctrlKey plainClick)) single) =
    Some denied ∧
  filter isAlert (trace (onNodeClick false (λ _ _, Raises denied) "/root" plainClick single)) =
    [CallAlertShow (message denied +:+ " (" +:+ toString (code denied) +:+ ")") "danger"].
Proof.
  split; [reflexivity|].
  apply (raise_is_reported false (λ _ _, Raises denied) "/root" plainClick single denied).
  reflexivity.
Defined.

End RouterExamples.

(** * Further properties of the alert queue *)

Section AlertState.
Import Js AppAlert AlertView.

Lemma turns_raise ins a q :
  shows a q → queueTurns ins q = None → turns ins a = Throw TypeError.
Proof.
  revert a q. induction ins as [|i ins IH]; intros a q Hs Hq; simpl in *; [done|].
  destruct (queueTurn i q) as [q1|] eqn:E; simpl in Hq.
  - destruct (turn_shows i a q q1 Hs E) as (a1 & -> & Hs1). simpl.
    by apply (IH a1 q1).
  - destruct Hs as (_ & Hdefer & _).
    unfold queueTurn in E. destruct i as [req|res], (current q) as [c|]; try discriminate.
    simpl in Hdefer. unfold turn, onClose. by rewrite Hdefer.
Qed.

Lemma queueTurns_answerable ins q :
  (current q = None → pending q = []) →
  answerable (outstanding q) ins = bool_decide (is_Some (queueTurns ins q)).
Proof.
  revert q. induction ins as [|i ins IH]; intros q Htidy; simpl.
  - done.
  - destruct (queueTurn i q) as [q1|] eqn:E; simpl.
    + destruct (queueTurn_keeps i q q1 Htidy E) as (Htidy1 & _ & _).
      rewrite <-(IH q1 Htidy1).
      unfold queueTurn in E. destruct q as [sv cur pd]. unfold outstanding in *.
      destruct i as [req|res], cur as [c|]; simpl in *; try discriminate;
        injection E as <-; simpl.
      * rewrite length_app. simpl. f_equal. lia.
      * rewrite (Htidy eq_refl). done.
      * destruct pd as [|w ws]; simpl; done.
    + unfold queueTurn in E. destruct q as [sv cur pd]. unfold outstanding.
      destruct i as [req|res], cur as [c|]; simpl in *; try discriminate.
      by rewrite (Htidy eq_refl).
Qed.

(** X11: the alerter raises exactly when an answer arrives while no
    request is outstanding: a sequence of calls and answers in which
    every answer finds a prompt open runs through, and any other ends in
    the [TypeError] of resolving a deferred that is not there. *)
Theorem stray_answer_is_the_only_failure (ins : list Input) :
  if answerable 0 ins
  then ∃ a, turns ins create = Ok a
  else turns ins create = Throw TypeError.
Proof.
  pose proof (queueTurns_answerable ins idle (λ _, eq_refl)) as Hq.
  change (outstanding idle) with 0 in Hq. rewrite Hq.
  destruct (queueTurns ins idle) as [q|] eqn:E.
  - rewrite bool_decide_eq_true_2 by eauto.
    destruct (turns_shows ins create idle q create_shows_idle E) as (a & Hrun & _).
    by exists a.
  - rewrite bool_decide_eq_false_2 by (by intros [? ?]).
    by apply (turns_raise ins create idle create_shows_idle).
Qed.

End AlertState.

(** * Properties of the settings state *)

Section SettingsFacts.
Import Stdlib.Strings.Ascii Js Settings.

Lemma assignKey_keeps {A} (target source : option A) : keeps source (assignKey target source).
Proof. by destruct source. Qed.

Lemma keeps_refl {A} (o : option A) : keeps o o.
Proof. by destruct o. Qed.

(** X13: upgrading never loses what the user had stored: every key
    present in local storage comes back with its stored value, the old
    version string included; an outdated object is filled up from the
    defaults so that no key is missing, an up-to-date one is returned as
    it is, and with nothing stored the defaults are complete. *)
Theorem upgrade_keeps_stored_values (pf : Platform) (appVersion : string)
    (settings : Stored) :
  keeps (lang settings)
        (lang (loadAndUpgradeSettings pf appVersion (Some settings))) ∧
  keeps (darkMode settings)
        (darkMode (loadAndUpgradeSettings pf appVersion (Some settings))) ∧
  keeps (storedFolder settings)
        (storedFolder (loadAndUpgradeSettings pf appVersion (Some settings))) ∧
  keeps (defaultTerminal settings)
        (defaultTerminal (loadAndUpgradeSettings pf appVersion (Some settings))) ∧
  keeps (version settings)
        (version (loadAndUpgradeSettings pf appVersion (Some settings))) ∧
  (if outdated appVersion (version settings)
   then complete (loadAndUpgradeSettings pf appVersion (Some settings)) = true
   else loadAndUpgradeSettings pf appVersion (Some settings) = settings) ∧
  complete (loadAndUpgradeSettings pf appVersion None) = true.
Proof.
  unfold loadAndUpgradeSettings.
  destruct (outdated appVersion (version settings)); simpl.
  - repeat split; try apply assignKey_keeps.
    unfold complete, assign. simpl.
    by destruct (lang settings), (darkMode settings), (storedFolder settings),
       (defaultTerminal settings), (version settings).
  - repeat split; apply keeps_refl.
Qed.

Lemma ltb_irrefl (v : string) : String.ltb v v = false.
Proof.
  unfold String.ltb. pose proof (String.compare_antisym v v) as H.
  destruct (String.compare v v); simpl in H; done.
Qed.

(** X14: what [saveSettings] has written is read back unchanged by the
    same version of the application: with a version string that is not
    empty no upgrade is attempted, and keys that were left out because
    the field was undefined stay left out instead of being filled from
    the defaults. *)
Theorem saved_settings_read_back (pf : Platform) (appVersion : string)
    (lang0 folder terminal : option string) (dark : option DarkMode) :
  appVersion ≠ "" →
  loadAndUpgradeSettings pf appVersion
    (Some (saveSettings lang0 folder dark terminal appVersion)) =
  saveSettings lang0 folder dark terminal appVersion.
Proof.
  intros Hv. unfold loadAndUpgradeSettings, outdated. simpl.
  rewrite ltb_irrefl.
  by apply String.eqb_neq in Hv as ->.
Qed.

Lemma substitute_noDollar matched before after rep :
  noDollar rep = true → substitute matched before after rep = rep.
Proof.
  induction rep as [|c rest IH]; simpl; [done|].
  intros [Hc Hrest]%andb_prop. apply negb_true_iff in Hc. rewrite Hc.
  by rewrite IH.
Qed.

Lemma noDollar_escapeQuotes s : noDollar s = true → noDollar (escapeQuotes s) = true.
Proof.
  induction s as [|c rest IH]; simpl; [done|].
  intros [Hc Hrest]%andb_prop.
  destruct (Ascii.eqb c quote); simpl; rewrite ?Hc; simpl; by apply IH.
Qed.

(** X15: on Windows and on Linux the command line for a directory is the
    platform's template with the directory and the terminal put in their
    slots, each with its double quotes escaped; this holds for every
    terminal and directory that contain no [$], the character
    [String.prototype.replace] gives a meaning to. *)
Theorem terminal_command_fills_template (pf : Platform) (cmd dir : string) :
  isWin pf || negb (isMac pf) = true →
  noDollar cmd = true →
  noDollar dir = true →
  getTerminalCommand (setDefaultTerminal pf cmd).2 dir =
    if isWin pf
    then "start /D " +:+ dq +:+ escapeQuotes dir +:+ dq +:+ " " +:+ dq +:+ "%cd%" +:+ dq
         +:+ " " +:+ dq +:+ escapeQuotes cmd +:+ dq
    else "cd " +:+ dq +:+ escapeQuotes dir +:+ dq +:+ " && " +:+ dq
         +:+ escapeQuotes cmd +:+ dq.
Proof.
  intros Hpf Hcmd Hdir.
  apply noDollar_escapeQuotes in Hcmd, Hdir.
  unfold getTerminalCommand, setDefaultTerminal, templateFor.
  destruct (isWin pf), (isMac pf); try discriminate; simpl; unfold replace.
  - change (splitAtFirst "%cmd" TERMINAL_CMD_win)
      with (Some ("start /D " +:+ dq +:+ "%path" +:+ dq +:+ " " +:+ dq +:+ "%cd%"
                  +:+ dq +:+ " " +:+ dq, dq)).
    cbv beta iota. rewrite substitute_noDollar by done. simpl.
    by rewrite substitute_noDollar.
  - change (splitAtFirst "%cmd" TERMINAL_CMD_win)
      with (Some ("start /D " +:+ dq +:+ "%path" +:+ dq +:+ " " +:+ dq +:+ "%cd%"
                  +:+ dq +:+ " " +:+ dq, dq)).
    cbv beta iota. rewrite substitute_noDollar by done. simpl.
    by rewrite substitute_noDollar.
  - change (splitAtFirst "%cmd" TERMINAL_CMD_linux)
      with (Some ("cd " +:+ dq +:+ "%path" +:+ dq +:+ " && " +:+ dq, dq)).
    cbv beta iota. rewrite substitute_noDollar by done. simpl.
    by rewrite substitute_noDollar.
Qed.

Lemma append_assoc' (s1 s2 s3 : string) : (s1 +:+ s2) +:+ s3 = s1 +:+ s2 +:+ s3.
Proof.
  induction s1 as [|c s1 IH]; [done|].
  change (String c ((s1 +:+ s2) +:+ s3) = String c (s1 +:+ s2 +:+ s3)).
  by rewrite IH.
Qed.

Lemma noPercent_escapeQuotes s : noPercent s = true → noPercent (escapeQuotes s) = true.
Proof.
  induction s as [|c rest IH]; simpl; [done|].
  intros [Hc Hrest]%andb_prop.
  destruct (Ascii.eqb c quote); simpl; rewrite ?Hc; simpl; by apply IH.
Qed.

(** A text without [%] holds no start of a placeholder: the search goes
    past it. *)
Lemma splitAtFirst_past pat text rest :
  noPercent text = true →
  splitAtFirst (String "%" pat) (text +:+ rest) =
  match splitAtFirst (String "%" pat) rest with
  | Some (before, after) => Some (text +:+ before, after)
  | None => None
  end.
Proof.
  induction text as [|c text IH]; intros Htext.
  - change (EmptyString +:+ rest) with rest.
    destruct (splitAtFirst (String "%" pat) rest) as [[? ?]|]; reflexivity.
  - simpl in Htext. apply andb_prop in Htext as [Hc Htext].
    apply negb_true_iff in Hc.
    change (String c text +:+ rest) with (String c (text +:+ rest)).
    cbn [splitAtFirst stripPrefix].
    rewrite Ascii.eqb_sym, Hc, (IH Htext).
    destruct (splitAtFirst (String "%" pat) rest) as [[? ?]|]; reflexivity.
Qed.

(** X16: on macOS, where the terminal comes first in the template, the
    command line is [open -a] with the terminal and the directory in
    their slots, quotes escaped, for every terminal free of [$] and [%]
    and every directory free of [$]. *)
Theorem terminal_command_on_mac (pf : Platform) (cmd dir : string) :
  isWin pf = false →
  isMac pf = true →
  noDollar cmd = true →
  noPercent cmd = true →
  noDollar dir = true →
  getTerminalCommand (setDefaultTerminal pf cmd).2 dir =
    "open -a " +:+ dq +:+ escapeQuotes cmd +:+ dq +:+ " " +:+ dq
    +:+ escapeQuotes dir +:+ dq.
Proof.
  intros Hwin Hmac Hcmd Hpercent Hdir.
  apply noDollar_escapeQuotes in Hcmd, Hdir.
  apply noPercent_escapeQuotes in Hpercent.
  unfold getTerminalCommand, setDefaultTerminal, templateFor.
  rewrite Hwin, Hmac. simpl. unfold replace.
  change (splitAtFirst "%cmd" TERMINAL_CMD_darwin)
    with (Some ("open -a " +:+ dq, dq +:+ " " +:+ dq +:+ "%path" +:+ dq)).
  cbv beta iota. rewrite substitute_noDollar by done.
  rewrite (splitAtFirst_past "path" ("open -a " +:+ dq)) by reflexivity.
  rewrite (splitAtFirst_past "path" (escapeQuotes cmd)) by done.
  change (splitAtFirst "%path" (dq +:+ " " +:+ dq +:+ "%path" +:+ dq))
    with (Some (dq +:+ " " +:+ dq, dq)).
  cbv beta iota. rewrite substitute_noDollar by done.
  rewrite !append_assoc'. reflexivity.
Qed.

Lemma escapeQuotes_head c rest :
  escapeQuotes rest ≠ String quote c.
Proof.
  destruct rest as [|d rest]; simpl; [done|].
  destruct (Ascii.eqb d quote) eqn:E; [done|].
  intros [= -> _]. by rewrite Ascii.eqb_refl in E.
Qed.

(** X17: escaping double quotes loses nothing and leaves no quote bare:
    two texts with the same escaped form are the same text, and in the
    escaped form every double quote stands right after a backslash. *)
Theorem escapeQuotes_is_faithful (s1 s2 : string) (afterBackslash : bool) :
  (escapeQuotes s1 = escapeQuotes s2 ↔ s1 = s2) ∧
  wellQuoted afterBackslash (escapeQuotes s1) = true.
Proof.
  split; [split; [|by intros ->]|].
  - revert s2. induction s1 as [|c1 r1 IH]; intros [|c2 r2]; simpl; try done.
    + by destruct (Ascii.eqb c2 quote).
    + by destruct (Ascii.eqb c1 quote).
    + destruct (Ascii.eqb c1 quote) eqn:E1, (Ascii.eqb c2 quote) eqn:E2.
      * apply Ascii.eqb_eq in E1, E2. subst. intros [= H]. by rewrite (IH _ H).
      * intros [= <- H]. symmetry in H. by apply escapeQuotes_head in H.
      * intros [= -> H]. by apply escapeQuotes_head in H.
      * intros [= -> H]. by rewrite (IH _ H).
  - revert afterBackslash. induction s1 as [|c r IH]; intros b; simpl; [done|].
    destruct (Ascii.eqb c quote) eqn:E; simpl.
    + apply IH.
    + rewrite E. apply IH.
Qed.

End SettingsFacts.

(** * The further properties on the sample data *)

Section MoreExamples.
Import Js LeftPanel Samples MoreSamples.

Lemma rebuild_is_idempotent_witness :
  wf tree ∧
  ∃ p', buildNodes username icons visible favorites tree = Ok p' ∧
        buildNodes username icons visible favorites p' = Ok p' ∧
        groupId <$> nodes p' = groupId <$> nodes tree ∧
        isExpanded <$> nodes p' = isExpanded <$> nodes tree ∧
        showDistributions p' = showDistributions tree.
Proof.
  split; [reflexivity|].
  apply (rebuild_is_idempotent username icons visible favorites tree). reflexivity.
Defined.

Lemma toggle_commutes_with_rebuild_and_render_witness :
  wf tree ∧
  ∃ p1 p2,
    buildNodes username icons visible favorites tree = Ok p1 ∧
    buildNodes username icons visible favorites (onNodeToggle 1 tree) =
      Ok (onNodeToggle 1 p1) ∧
    setActiveNode "/data" tree = Ok p2 ∧
    setActiveNode "/data" (onNodeToggle 1 tree) = Ok (onNodeToggle 1 p2).
Proof.
  split; [reflexivity|].
  apply (toggle_commutes_with_rebuild_and_render username icons visible favorites
           "/data" 1 tree).
  reflexivity.
Defined.

Lemma getNodeFromPath_finds_witness :
  wf tree ∧
  ∃ found, getNodeFromPath "/data" tree = Ok found ∧
    match found with
    | Some r =>
        (nodes tree !! groupIx r) ≫= (λ g, childNodes g !! entryIx r) = Some (target r) ∧
        nodeData (target r) = "/data" ∧
        firstMatch "/data" tree = Some (target r)
    | None => Forall (λ n, nodeData n ≠ "/data") (entries tree)
    end.
Proof.
  split; [reflexivity|].
  apply (getNodeFromPath_finds "/data" tree). reflexivity.
Defined.

(** The lookup on the sample tree: the saved place, second group. *)
Example data_is_found :
  ∃ r, getNodeFromPath "/data" tree = Ok (Some r) ∧ groupIx r = 1 ∧ entryIx r = 0.
Proof. eexists. repeat split; reflexivity. Qed.

Lemma render_without_active_cache_witness :
  wf tree ∧
  Forall (λ n, nodeData n ≠ "") (entries tree) ∧
  ∃ p', Lifetime.render visible None tree =
          Ok (p', {| Lifetime.contents := nodes p'; Lifetime.hidden := hide visible |}) ∧
        entries p' = clear (entries tree) ∧
        selectedNodes p' = [] ∧
        forgetSelection p' = forgetSelection tree.
Proof.
  assert (Hpaths : Forall (λ n, nodeData n ≠ "") (entries tree)).
  { repeat (constructor; [discriminate|]). constructor. }
  split; [reflexivity|]. split; [exact Hpaths|].
  apply (render_without_active_cache visible tree); [reflexivity|exact Hpaths].
Defined.

Lemma unmount_releases_subscriptions_witness :
  Lifetime.dispatchAll username icons earlier (Lifetime.mount false visible favorites) =
    Ok used ∧
  forallb Lifetime.fromOutside later = true ∧
  Lifetime.registered (Lifetime.componentWillUnmount used) = [] ∧
  (∃ i', Lifetime.dispatchAll username icons later (Lifetime.componentWillUnmount used) =
           Ok i' ∧
         Lifetime.world i' = foldl (λ w ev, deliver ev w) (Lifetime.world used) later ∧
         panel (Lifetime.world i') = panel (Lifetime.world used)) ∧
  (∃ i', Lifetime.dispatch username icons (ProbeSettled (Some true))
           (Lifetime.componentWillUnmount used) = Ok i' ∧
         panel (Lifetime.world i') =
           if probePending (Lifetime.world used)
           then checkForWSL (props (Lifetime.world used)) true (panel (Lifetime.world used))
           else panel (Lifetime.world used)).
Proof.
  split; [reflexivity|]. split; [reflexivity|].
  apply (unmount_releases_subscriptions username icons false visible favorites
           earlier later used); reflexivity.
Defined.

(** After the unmount the places are emptied and the language changes:
    the tree still shows the place it had; the probe, settling late,
    still adds its group. *)
Example stale_tree_after_unmount :
  ∃ i' i'',
    Lifetime.dispatchAll username icons later (Lifetime.componentWillUnmount used) = Ok i' ∧
    places (favoritesState (Lifetime.world i')) = [] ∧
    nodeData <$> entries (panel (Lifetime.world i')) = ["/home/u"; "/data"] ∧
    Lifetime.dispatch username icons (ProbeSettled (Some true)) i' = Ok i'' ∧
    groupId <$> nodes (panel (Lifetime.world i'')) = [0; 1; 2].
Proof. do 2 eexists. repeat split; reflexivity. Qed.

Lemma saved_settings_read_back_witness :
  "2.1.0" ≠ "" ∧
  Settings.loadAndUpgradeSettings linux "2.1.0"
    (Some (Settings.saveSettings (Some "fr") None (Some Settings.Auto) None "2.1.0")) =
  Settings.saveSettings (Some "fr") None (Some Settings.Auto) None "2.1.0".
Proof.
  split; [discriminate|].
  apply (saved_settings_read_back linux "2.1.0" (Some "fr") None None (Some Settings.Auto)).
  discriminate.
Defined.

Lemma terminal_command_fills_template_witness :
  Settings.isWin linux || negb (Settings.isMac linux) = true ∧
  Settings.noDollar "xterm" = true ∧
  Settings.noDollar "/tmp/my files" = true ∧
  Settings.getTerminalCommand (Settings.setDefaultTerminal linux "xterm").2 "/tmp/my files" =
    if Settings.isWin linux
    then "start /D " +:+ Settings.dq +:+ Settings.escapeQuotes "/tmp/my files"
         +:+ Settings.dq +:+ " " +:+ Settings.dq +:+ "%cd%" +:+ Settings.dq
         +:+ " " +:+ Settings.dq +:+ Settings.escapeQuotes "xterm" +:+ Settings.dq
    else "cd " +:+ Settings.dq +:+ Settings.escapeQuotes "/tmp/my files"
         +:+ Settings.dq +:+ " && " +:+ Settings.dq
         +:+ Settings.escapeQuotes "xterm" +:+ Settings.dq.
Proof.
  split; [reflexivity|]. split; [reflexivity|]. split; [reflexivity|].
  apply (terminal_command_fills_template linux "xterm" "/tmp/my files"); reflexivity.
Defined.

Lemma last_render_decides_selection_witness :
  wf tree ∧
  ∃ p1 p2, setActiveNode "/home/u" tree = Ok p1 ∧
           setActiveNode "/data" p1 = Ok p2 ∧
           setActiveNode "/data" tree = Ok p2.
Proof.
  split; [reflexivity|].
  apply (last_render_decides_selection "/home/u" "/data" tree). reflexivity.
Defined.

Lemma terminal_command_on_mac_witness :
  Settings.isWin mac = false ∧
  Settings.isMac mac = true ∧
  Settings.noDollar "iTerm.app" = true ∧
  Settings.noPercent "iTerm.app" = true ∧
  Settings.noDollar "/Users/u/My Files" = true ∧
  Settings.getTerminalCommand (Settings.setDefaultTerminal mac "iTerm.app").2
    "/Users/u/My Files" =
    "open -a " +:+ Settings.dq +:+ Settings.escapeQuotes "iTerm.app" +:+ Settings.dq
    +:+ " " +:+ Settings.dq +:+ Settings.escapeQuotes "/Users/u/My Files"
    +:+ Settings.dq.
Proof.
  do 5 (split; [reflexivity|]).
  apply (terminal_command_on_mac mac "iTerm.app" "/Users/u/My Files"); reflexivity.
Defined.

End MoreExamples.
